(** * Freight routing engine: graph construction and weighted shortest path

    A shallow embedding of the deterministic core of
    [BBCmapss/backend/freight_simulation] ([models.py], [simulation.py]):
    the node/edge model, the weather grid, pain points, the builder of the
    effective graph and the Dijkstra query.

    Numbers.  Python [float]/[int] quantities (degrees, hours, tonnes,
    currency, severities, objective weights) are embedded as exact
    rationals [Q]; rounding of IEEE doubles is outside that embedding.
    Where a statement compares such quantities it uses [==] ([Qeq]).
    Three places of the code leave the rationals by more than rounding at
    values a caller can pass: the sum and the divisions of [update_weights]
    (overflow), the [+=] and [-=] on a node's delay (absorption) and the
    range guard of [set_severity] (NaN).  Their arithmetic is embedded a
    second time over IEEE binary64 (section "IEEE binary64"), and the
    statements about them over [Q] carry the range in which the two
    embeddings agree.

    Effects.  The methods of [FreightSimulation] mutate the object and may
    raise; they are embedded in a state monad whose result is either a
    value or a raised exception, and which keeps the mutations performed
    before the raise, as Python does. *)

From Stdlib Require Import QArith Qround Lqa ZArith Lia.
From Stdlib Require Import Floats.SpecFloat.
From stdpp Require Import gmap strings list fin_maps.

Local Open Scope Z_scope.
Local Open Scope nat_scope.
Local Open Scope string_scope.
Local Open Scope list_scope.
Local Open Scope stdpp_scope.

(** ** Python values *)

(** [int(x)] on a float truncates toward zero. *)
Definition py_int (x : Q) : Z := Z.quot (Qnum x) (Zpos (Qden x)).

(** [math.floor(x)], used only to state what floor division would give. *)
Definition py_floor (x : Q) : Z := Qfloor x.

(** Built-in [min(a, b)] and [max(a, b)]: the first argument is returned
    unless the second is strictly smaller (resp. larger). *)
Definition py_min (a b : Q) : Q := if Qlt_le_dec b a then b else a.
Definition py_max (a b : Q) : Q := if Qlt_le_dec a b then b else a.

Definition Qltb (a b : Q) : bool := if Qlt_le_dec a b then true else false.

(** Exceptions that the modelled code can raise.  [Diverge] is not a Python
    exception: it marks exhaustion of the fuel that bounds the [while] loop
    of the search, and is shown never to occur ([dijkstra_fuel_enough]). *)
Inductive exn :=
| KeyError | IndexError | ValueError | RuntimeError | NetworkXNoPath | NodeNotFound
| Diverge.

Inductive res (A : Type) :=
| Ok (a : A)
| Raise (e : exn).
Arguments Ok {A} a.
Arguments Raise {A} e.

(** ** models.py *)

Record Node := mkNode {
  id : string;
  lat : Q;
  lon : Q;
  name : string;
  type : string;
  country : option string;
  delay : Q;
  blocked : bool;
  connections_count : nat
}.

Definition set_delay (d : Q) (n : Node) : Node :=
  mkNode (id n) (lat n) (lon n) (name n) (type n) (country n) d (blocked n)
         (connections_count n).

Definition set_blocked (b : bool) (n : Node) : Node :=
  mkNode (id n) (lat n) (lon n) (name n) (type n) (country n) (delay n) b
         (connections_count n).

Record Edge := mkEdge {
  source : string;
  destination : string;
  mode : string;
  base_duration : Q;
  base_emissions : Q;
  base_cost : Q;
  current_duration : Q;
  current_emissions : Q;
  current_cost : Q;
  weather_impact : Q
}.

(** [Edge.__init__]: current values start at the base values. *)
Definition Edge_init (src dst md : string) (duration emissions cost : Q) : Edge :=
  mkEdge src dst md duration emissions cost duration emissions cost 0.

(** [Edge.update_values(weather_impact=None)]. *)
Definition update_values (weather : option Q) (e : Edge) : Edge :=
  let wi := match weather with Some w => w | None => weather_impact e end in
  let weather_factor := (1 + wi * 2)%Q in
  let cost_factor := (1 + wi * (3 # 2))%Q in
  mkEdge (source e) (destination e) (mode e)
         (base_duration e) (base_emissions e) (base_cost e)
         (base_duration e * weather_factor)%Q
         (base_emissions e * weather_factor)%Q
         (base_cost e * cost_factor)%Q
         wi.

Record WeatherGrid := mkWeatherGrid {
  grid_size : Z;
  grid : gmap (Z * Z) Q
}.

Definition WeatherGrid_init (size : Z) : WeatherGrid := mkWeatherGrid size ∅.

(** [WeatherGrid.get_block_key]: [int(lat / grid_size) * grid_size]. *)
Definition get_block_key (w : WeatherGrid) (la lo : Q) : Z * Z :=
  let lat_block := (py_int (la / inject_Z (grid_size w)) * grid_size w)%Z in
  let lon_block := (py_int (lo / inject_Z (grid_size w)) * grid_size w)%Z in
  (lat_block, lon_block).

(** [WeatherGrid.set_severity]; raises [ValueError] outside [0, 1]. *)
Definition set_severity (w : WeatherGrid) (la lo severity : Q) : res WeatherGrid :=
  if Qltb severity 0 || Qltb 1 severity then Raise ValueError
  else Ok (mkWeatherGrid (grid_size w) (<[get_block_key w la lo := severity]> (grid w))).

(** [WeatherGrid.get_severity]: [self.grid.get(key, 0.0)]. *)
Definition get_severity (w : WeatherGrid) (la lo : Q) : Q :=
  default 0%Q (grid w !! get_block_key w la lo).

Record PainPoint := mkPainPoint {
  node_id : string;
  event_type : string;
  pp_name : string;
  delay_increase : Q;
  pp_blocked : bool
}.

(** The block key that floor division into [grid_size]-degree blocks gives. *)
Definition floor_block_key (w : WeatherGrid) (la lo : Q) : Z * Z :=
  ((py_floor (la / inject_Z (grid_size w)) * grid_size w)%Z,
   (py_floor (lo / inject_Z (grid_size w)) * grid_size w)%Z).

(** ** The effective graph: [networkx.DiGraph]

    [_adj] maps a node to the dictionary of its successors.  The outer
    dictionary is only ever indexed, so it is a finite map; the inner one
    is iterated by the search in insertion order, so it is an association
    list in that order.  [_node] holds the attribute dictionary stored by
    [add_node]: the [to_dict] snapshot of the node, or nothing when the
    node was created implicitly by [add_edge]. *)

Record EdgeData := mkEdgeData {
  ed_mode : string;
  ed_duration : Q;
  ed_emissions : Q;
  ed_cost : Q;
  ed_weather_impact : Q
}.

Record DiGraph := mkDiGraph {
  g_node : gmap string (option Node);
  g_adj : gmap string (list (string * EdgeData))
}.

Definition DiGraph_empty : DiGraph := mkDiGraph ∅ ∅.

(** Assignment [d[k] = v] on an insertion-ordered dictionary: an existing
    key keeps its position. *)
Fixpoint dict_set {V} (k : string) (v : V) (d : list (string * V)) : list (string * V) :=
  match d with
  | [] => [(k, v)]
  | (k', v') :: d' =>
      if decide (k' = k) then (k, v) :: d' else (k', v') :: dict_set k v d'
  end.

Fixpoint dict_get {V} (k : string) (d : list (string * V)) : option V :=
  match d with
  | [] => None
  | (k', v') :: d' => if decide (k' = k) then Some v' else dict_get k d'
  end.

(** [G.add_node(n, **attr)]. *)
Definition add_node (n : string) (attr : Node) (g : DiGraph) : DiGraph :=
  match g_node g !! n with
  | None => mkDiGraph (<[n := Some attr]> (g_node g)) (<[n := []]> (g_adj g))
  | Some _ => mkDiGraph (<[n := Some attr]> (g_node g)) (g_adj g)
  end.

(** The implicit node creation of [add_edge]. *)
Definition touch_node (n : string) (g : DiGraph) : DiGraph :=
  match g_node g !! n with
  | None => mkDiGraph (<[n := None]> (g_node g)) (<[n := []]> (g_adj g))
  | Some _ => g
  end.

(** [G.add_edge(u, v, **attr)]; every call of the builder supplies all five
    attributes, so updating an existing attribute dictionary replaces it. *)
Definition add_edge (u v : string) (attr : EdgeData) (g : DiGraph) : DiGraph :=
  let g1 := touch_node v (touch_node u g) in
  mkDiGraph (g_node g1)
            (<[u := dict_set v attr (default [] (g_adj g1 !! u))]> (g_adj g1)).

(** [G[u][v]]. *)
Definition edge_data (g : DiGraph) (u v : string) : option EdgeData :=
  g_adj g !! u ≫= dict_get v.

Definition has_edge (g : DiGraph) (u v : string) : Prop :=
  is_Some (edge_data g u v).

(** ** simulation.py: the simulation object *)

Record Weights := mkWeights {
  w_duration : Q;
  w_emissions : Q;
  w_cost : Q
}.

Record RouteEdge := mkRouteEdge {
  re_source : string;
  re_destination : string;
  re_mode : string;
  re_duration : Q;
  re_emissions : Q;
  re_cost : Q
}.

Record Metrics := mkMetrics {
  m_duration : Q;
  m_emissions : Q;
  m_cost : Q;
  total_nodes : nat
}.

Record Route := mkRoute {
  path : list string;
  r_edges : list RouteEdge;
  metrics : Metrics
}.

Record FreightSimulation := mkSim {
  graph : DiGraph;
  nodes : gmap string Node;
  edges : list Edge;
  weather_grid : WeatherGrid;
  pain_points : list PainPoint;
  weights : Weights;
  current_route : option Route;
  initialized : bool
}.

Definition WEATHER_GRID_SIZE : Z := 5.

(** [FreightSimulation.__init__]. *)
Definition FreightSimulation_init : FreightSimulation :=
  mkSim DiGraph_empty ∅ [] (WeatherGrid_init WEATHER_GRID_SIZE) []
        (mkWeights (4 # 10) (3 # 10) (3 # 10)) None false.

Definition with_graph (g : DiGraph) (s : FreightSimulation) : FreightSimulation :=
  mkSim g (nodes s) (edges s) (weather_grid s) (pain_points s) (weights s)
        (current_route s) (initialized s).
Definition with_nodes (ns : gmap string Node) (s : FreightSimulation) : FreightSimulation :=
  mkSim (graph s) ns (edges s) (weather_grid s) (pain_points s) (weights s)
        (current_route s) (initialized s).
Definition with_edges (es : list Edge) (s : FreightSimulation) : FreightSimulation :=
  mkSim (graph s) (nodes s) es (weather_grid s) (pain_points s) (weights s)
        (current_route s) (initialized s).
Definition with_weather_grid (w : WeatherGrid) (s : FreightSimulation) : FreightSimulation :=
  mkSim (graph s) (nodes s) (edges s) w (pain_points s) (weights s)
        (current_route s) (initialized s).
Definition with_pain_points (ps : list PainPoint) (s : FreightSimulation) : FreightSimulation :=
  mkSim (graph s) (nodes s) (edges s) (weather_grid s) ps (weights s)
        (current_route s) (initialized s).
Definition with_weights (w : Weights) (s : FreightSimulation) : FreightSimulation :=
  mkSim (graph s) (nodes s) (edges s) (weather_grid s) (pain_points s) w
        (current_route s) (initialized s).
Definition with_current_route (r : option Route) (s : FreightSimulation) : FreightSimulation :=
  mkSim (graph s) (nodes s) (edges s) (weather_grid s) (pain_points s) (weights s)
        r (initialized s).
Definition with_initialized (b : bool) (s : FreightSimulation) : FreightSimulation :=
  mkSim (graph s) (nodes s) (edges s) (weather_grid s) (pain_points s) (weights s)
        (current_route s) b.

(** ** Methods as stateful, fallible computations *)

Definition M (A : Type) : Type := FreightSimulation → res A * FreightSimulation.

Definition ret {A} (a : A) : M A := λ s, (Ok a, s).
Definition raise {A} (e : exn) : M A := λ s, (Raise e, s).
Definition bind {A B} (c : M A) (k : A → M B) : M B :=
  λ s, match c s with
       | (Ok a, s') => k a s'
       | (Raise e, s') => (Raise e, s')
       end.
Definition get : M FreightSimulation := λ s, (Ok s, s).
Definition modify (f : FreightSimulation → FreightSimulation) : M unit :=
  λ s, (Ok tt, f s).

#[global] Instance M_ret : MRet M := @ret.
#[global] Instance M_bind : MBind M := λ A B k c, bind c k.

(** [self.nodes[node_id]]: a missing key raises [KeyError]. *)
Definition node_at (k : string) : M Node :=
  λ s, match nodes s !! k with
       | Some n => (Ok n, s)
       | None => (Raise KeyError, s)
       end.

Definition to_edge_data (e : Edge) (edge_duration : Q) : EdgeData :=
  mkEdgeData (mode e) edge_duration (current_emissions e) (current_cost e)
             (weather_impact e).

(** One iteration of the [for edge in self.edges] loop of [_build_graph],
    for the edge at position [i].  The [or] of the blocked test
    short-circuits, so the destination is only looked up when the source is
    not blocked.  [edge.update_values] mutates the edge object held in
    [self.edges]. *)
Definition build_edge (i : nat) (edge : Edge) : M unit :=
  src ← node_at (source edge);
  if blocked src then ret tt
  else
    dst ← node_at (destination edge);
    if blocked dst then ret tt
    else
      let midpoint_lat := ((lat src + lat dst) / 2)%Q in
      let midpoint_lon := ((lon src + lon dst) / 2)%Q in
      s ← get;
      let weather := get_severity (weather_grid s) midpoint_lat midpoint_lon in
      let edge' := update_values (Some weather) edge in
      modify (λ s, with_edges (<[i := edge']> (edges s)) s);;
      let src_delay := delay src in
      let edge_duration := (current_duration edge' + src_delay)%Q in
      modify (λ s, with_graph (add_edge (source edge') (destination edge')
                                 (to_edge_data edge' edge_duration) (graph s)) s).

Fixpoint build_edges (i : nat) (todo : list Edge) : M unit :=
  match todo with
  | [] => ret tt
  | edge :: rest => build_edge i edge;; build_edges (S i) rest
  end.

(** [_build_graph]: clear, add every registered node, then every edge whose
    endpoints are both unblocked. *)
Definition _build_graph : M unit :=
  modify (with_graph DiGraph_empty);;
  modify (λ s, with_graph (map_fold (λ k n g, add_node k n g) (graph s) (nodes s)) s);;
  s ← get;
  build_edges 0 (edges s).

(** [self.nodes[k].<field> = ...]: look the node object up and mutate it. *)
Definition update_node (k : string) (f : Node → Node) : M unit :=
  n ← node_at k;
  modify (λ s, with_nodes (<[k := f n]> (nodes s)) s).

(** [initialize], with the two file loaders replaced by their outcome: the
    node registry and the edge list they leave in the object. *)
Definition initialize (ns : gmap string Node) (es : list Edge) : M unit :=
  modify (λ s, with_edges es (with_nodes ns s));;
  _build_graph;;
  modify (with_initialized true).

(** [update_weather]. *)
Definition update_weather (la lo severity : Q) : M unit :=
  s ← get;
  match set_severity (weather_grid s) la lo severity with
  | Raise e => raise e
  | Ok w => modify (with_weather_grid w);; _build_graph
  end.

(** [update_port_delay]: [max(0, min(24, delay_hours))]. *)
Definition update_port_delay (nid : string) (delay_hours : Q) : M unit :=
  s ← get;
  if decide (is_Some (nodes s !! nid)) then
    update_node nid (set_delay (py_max 0 (py_min 24 delay_hours)));;
    _build_graph
  else ret tt.

(** [add_pain_point]. *)
Definition add_pain_point (nid event name : string) (delay_inc : Q) (blk : bool)
  : M bool :=
  s ← get;
  if decide (is_Some (nodes s !! nid)) then
    let pain_point := mkPainPoint nid event name delay_inc blk in
    modify (λ s, with_pain_points (pain_points s ++ [pain_point]) s);;
    update_node nid (λ n, set_delay (delay n + delay_inc)%Q n);;
    update_node nid (set_blocked blk);;
    _build_graph;;
    ret true
  else ret false.

(** The loop of [remove_pain_point] that looks for another pain point still
    blocking the node; it stops at the first one. *)
Fixpoint still_blocking (nid : string) (pps : list PainPoint) : M unit :=
  match pps with
  | [] => ret tt
  | pp :: rest =>
      if bool_decide (node_id pp = nid) && pp_blocked pp
      then update_node nid (set_blocked true)
      else still_blocking nid rest
  end.

(** [remove_pain_point]; [index] is a Python integer. *)
Definition remove_pain_point (index : Z) : M bool :=
  s ← get;
  if bool_decide (0 ≤ index)%Z && bool_decide (index < Z.of_nat (length (pain_points s)))%Z
  then
    match pain_points s !! Z.to_nat index with
    | None => raise IndexError
    | Some pain_point =>
        modify (λ s, with_pain_points (delete (Z.to_nat index) (pain_points s)) s);;
        let nid := node_id pain_point in
        update_node nid (λ n, set_delay (delay n - delay_increase pain_point)%Q n);;
        update_node nid (set_blocked false);;
        s ← get;
        still_blocking nid (pain_points s);;
        _build_graph;;
        ret true
    end
  else ret false.

(** [update_weights]; an argument that is [None] leaves its weight as is.
    [sum] starts from 0 and adds the values in key order. *)
Definition update_weights (duration emissions cost : option Q) : M unit :=
  modify (λ s, with_weights
    (mkWeights (default (w_duration (weights s)) duration)
               (default (w_emissions (weights s)) emissions)
               (default (w_cost (weights s)) cost)) s);;
  s ← get;
  let w := weights s in
  let total := (0 + w_duration w + w_emissions w + w_cost w)%Q in
  if Qltb 0 total then
    modify (with_weights (mkWeights (w_duration w / total)
                                    (w_emissions w / total)
                                    (w_cost w / total)))
  else ret tt.

(** ** networkx: [dijkstra_path]

    [nx.dijkstra_path(G, source, target, weight)] is library code; it is
    embedded after networkx's [multi_source_dijkstra] and
    [_dijkstra_multisource], specialised to one source, a target, no cutoff
    and no predecessor dictionary, which is how the simulation calls it.

    The fringe is a [heapq] of triples [(distance, c, node)].  [heappop]
    returns the least triple; the counters [c] are pairwise different, so
    the least triple is decided by distance and counter.  The fringe is
    therefore kept as a list and [heappop] extracts its least entry. *)

Definition entry : Type := Q * nat * string.

Definition entry_lt (a b : entry) : bool :=
  match (a.1.1 ?= b.1.1)%Q with
  | Lt => true
  | Gt => false
  | Eq => match Nat.compare a.1.2 b.1.2 with
          | Lt => true
          | Gt => false
          | Eq => String.ltb a.2 b.2
          end
  end.

Definition heappush (h : list entry) (x : entry) : list entry := x :: h.

Fixpoint heappop (h : list entry) : option (entry * list entry) :=
  match h with
  | [] => None
  | x :: h' =>
      match heappop h' with
      | None => Some (x, [])
      | Some (m, r) => if entry_lt m x then Some (m, x :: r) else Some (x, h')
      end
  end.

Record DState := mkDState {
  dist : gmap string Q;
  seen : gmap string Q;
  paths : gmap string (list string);
  fringe : list entry;
  counter : nat
}.

Section Dijkstra.
Variable G : DiGraph.
Variable weight : string → string → EdgeData → Q.
Variable target : string.

(** The body of [for u, e in G_succ[v].items()], for one successor. *)
Definition relax (v u : string) (e : EdgeData) (st : DState) : res DState :=
  let cost := weight v u e in
  match dist st !! v with
  | None => Raise KeyError
  | Some dv =>
      let vu_dist := (dv + cost)%Q in
      let improve :=
        match paths st !! v with
        | None => Raise KeyError
        | Some pv =>
            Ok (mkDState (dist st) (<[u := vu_dist]> (seen st))
                         (<[u := pv ++ [u]]> (paths st))
                         (heappush (fringe st) (vu_dist, counter st, u))
                         (S (counter st)))
        end in
      match dist st !! u with
      | Some u_dist =>
          if Qltb vu_dist u_dist then Raise ValueError else Ok st
      | None =>
          match seen st !! u with
          | None => improve
          | Some su => if Qltb vu_dist su then improve else Ok st
          end
      end
  end.

Fixpoint relax_all (v : string) (succs : list (string * EdgeData)) (st : DState)
  : res DState :=
  match succs with
  | [] => Ok st
  | (u, e) :: rest =>
      match relax v u e st with
      | Raise x => Raise x
      | Ok st' => relax_all v rest st'
      end
  end.

(** [while fringe: ...]; [fuel] bounds the number of iterations. *)
Fixpoint dijkstra_loop (fuel : nat) (st : DState) : res DState :=
  match fuel with
  | O => Raise Diverge
  | S fuel' =>
      match heappop (fringe st) with
      | None => Ok st
      | Some ((d, _, v), h) =>
          let st0 := mkDState (dist st) (seen st) (paths st) h (counter st) in
          match dist st !! v with
          | Some _ => dijkstra_loop fuel' st0
          | None =>
              let st1 := mkDState (<[v := d]> (dist st)) (seen st) (paths st) h
                                  (counter st) in
              if decide (v = target) then Ok st1
              else
                match g_adj G !! v with
                | None => Raise KeyError
                | Some succs =>
                    match relax_all v succs st1 with
                    | Raise x => Raise x
                    | Ok st2 => dijkstra_loop fuel' st2
                    end
                end
          end
      end
  end.

(** Number of adjacency entries of [G]; every iteration of the loop either
    discards a fringe entry or settles a node and pushes at most one
    entry per successor, so this many iterations plus two are enough. *)
Definition number_of_edges : nat :=
  map_fold (λ _ (succs : list (string * EdgeData)) n, length succs + n) 0 (g_adj G).

Definition dijkstra_fuel : nat := S (S number_of_edges).

(** [_dijkstra_multisource(G, {source}, weight, paths=paths, target=target)]. *)
Definition _dijkstra_multisource (src : string) : res DState :=
  dijkstra_loop dijkstra_fuel
    (mkDState ∅ {[src := 0%Q]} {[src := [src]]} (heappush [] (0%Q, 0, src)) 1).

(** [dijkstra_path(G, source, target, weight)]. *)
Definition dijkstra_path (src : string) : res (list string) :=
  match g_node G !! src with
  | None => Raise NodeNotFound
  | Some _ =>
      if decide (target = src) then Ok [target]
      else
        match _dijkstra_multisource src with
        | Raise x => Raise x
        | Ok st =>
            match dist st !! target, paths st !! target with
            | Some _, Some p => Ok p
            | None, _ => Raise NetworkXNoPath
            | Some _, None => Raise KeyError
            end
        end
  end.
End Dijkstra.

(** ** [find_shortest_path] *)

(** The closure [weight_function(u, v, edge_data)], over [self.weights]. *)
Definition weight_function (w : Weights) (u v : string) (edge_data : EdgeData) : Q :=
  let max_duration := 100%Q in
  let max_emissions := 1000%Q in
  let max_cost := 5000%Q in
  let norm_duration := (ed_duration edge_data / max_duration)%Q in
  let norm_emissions := (ed_emissions edge_data / max_emissions)%Q in
  let norm_cost := (ed_cost edge_data / max_cost)%Q in
  (w_duration w * norm_duration + w_emissions w * norm_emissions
   + w_cost w * norm_cost)%Q.

(** The metrics loop [for i in range(len(path) - 1)]: the accumulators are
    the running totals and the list of edge records built so far. *)
Fixpoint path_metrics (g : DiGraph) (p : list string)
    (duration emissions cost : Q) (es : list RouteEdge)
  : res (Q * Q * Q * list RouteEdge) :=
  match p with
  | u :: ((v :: _) as rest) =>
      match edge_data g u v with
      | None => Raise KeyError
      | Some d =>
          path_metrics g rest (duration + ed_duration d)%Q
                       (emissions + ed_emissions d)%Q (cost + ed_cost d)%Q
                       (es ++ [mkRouteEdge u v (ed_mode d) (ed_duration d)
                                           (ed_emissions d) (ed_cost d)])
      end
  | _ => Ok (duration, emissions, cost, es)
  end.

Definition find_shortest_path (source_id target_id : string) : M (option Route) :=
  s ← get;
  if negb (initialized s) then raise RuntimeError
  else
    match nodes s !! source_id, nodes s !! target_id with
    | Some src, Some tgt =>
        if blocked src || blocked tgt then ret None
        else
          match dijkstra_path (graph s) (weight_function (weights s)) target_id
                              source_id with
          | Raise NetworkXNoPath | Raise NodeNotFound => ret None
          | Raise x => raise x
          | Ok p =>
              match path_metrics (graph s) p 0 0 0 [] with
              | Raise x => raise x
              | Ok (duration, emissions, cost, es) =>
                  let route := mkRoute p es
                                 (mkMetrics duration emissions cost (length p)) in
                  modify (with_current_route (Some route));;
                  ret (Some route)
              end
          end
    | _, _ => ret None
    end.

(** ** Sequences of calls and reachable states *)

Inductive Op :=
| OpUpdateWeather (la lo severity : Q)
| OpUpdatePortDelay (nid : string) (delay_hours : Q)
| OpAddPainPoint (nid event name : string) (delay_inc : Q) (blk : bool)
| OpRemovePainPoint (index : Z)
| OpUpdateWeights (duration emissions cost : option Q)
| OpFindShortestPath (source_id target_id : string).

(** The object after one call, whatever the call returned or raised. *)
Definition run_op (op : Op) (s : FreightSimulation) : FreightSimulation :=
  match op with
  | OpUpdateWeather la lo sev => (update_weather la lo sev s).2
  | OpUpdatePortDelay nid h => (update_port_delay nid h s).2
  | OpAddPainPoint nid ev nm d b => (add_pain_point nid ev nm d b s).2
  | OpRemovePainPoint i => (remove_pain_point i s).2
  | OpUpdateWeights d e c => (update_weights d e c s).2
  | OpFindShortestPath a b => (find_shortest_path a b s).2
  end.

Definition run_ops (ops : list Op) (s : FreightSimulation) : FreightSimulation :=
  foldl (λ s op, run_op op s) s ops.

(** Every edge produced by the loaders joins two registered nodes. *)
Definition edge_registered (ns : gmap string Node) (e : Edge) : Prop :=
  is_Some (ns !! source e) ∧ is_Some (ns !! destination e).

Inductive reachable : FreightSimulation → Prop :=
| reach_initialize ns es :
    Forall (edge_registered ns) es →
    reachable (initialize ns es FreightSimulation_init).2
| reach_op s op :
    reachable s → reachable (run_op op s).

(** The invariant of reachable states that the theorems below rely on. *)
Record wf (s : FreightSimulation) : Prop := mkWf {
  wf_initialized : initialized s = true;
  wf_edges : Forall (edge_registered (nodes s)) (edges s);
  wf_pain_points : Forall (λ pp, is_Some (nodes s !! node_id pp)) (pain_points s);
  wf_graph_nodes : ∀ k, is_Some (nodes s !! k) → is_Some (g_node (graph s) !! k)
}.

(** Everything of the object except the graph and the edges' current values. *)
Definition same_overlay (s s' : FreightSimulation) : Prop :=
  nodes s' = nodes s ∧ pain_points s' = pain_points s ∧ weights s' = weights s ∧
  weather_grid s' = weather_grid s ∧ initialized s' = initialized s ∧
  current_route s' = current_route s.

(** No edge of the effective graph touches a blocked node. *)
Definition unblocked (s : FreightSimulation) (k : string) : Prop :=
  ∃ n, nodes s !! k = Some n ∧ blocked n = false.

Definition no_blocked_edges (s : FreightSimulation) : Prop :=
  ∀ u v, has_edge (graph s) u v → unblocked s u ∧ unblocked s v.

(** The logical OR of the blocked flags of the pain points on a node. *)
Definition blocked_by_pain_points (nid : string) (pps : list PainPoint) : bool :=
  existsb (λ pp, bool_decide (node_id pp = nid) && pp_blocked pp) pps.

(** Representation invariant of the adjacency dictionaries: a successor
    occurs once among the keys of an inner dictionary. *)
Definition adj_nodup (g : DiGraph) : Prop :=
  ∀ v succs, g_adj g !! v = Some succs → NoDup succs.*1.

(** ** Paths of the effective graph and the invariant of the search *)

Section Paths.
Variable G : DiGraph.
Variable weight : string → string → EdgeData → Q.

(** Total weight of the node sequence [p]: the sum of [weight u v G[u][v]]
    over its consecutive pairs; undefined when a pair is not an edge. *)
Fixpoint walk_weight (p : list string) : option Q :=
  match p with
  | u :: ((v :: _) as rest) =>
      match edge_data G u v, walk_weight rest with
      | Some e, Some w => Some (weight u v e + w)%Q
      | _, _ => None
      end
  | _ => Some 0%Q
  end.

(** [p] is a path of [G] from [a] to [b] of total weight [w]. *)
Definition is_path (a b : string) (p : list string) (w : Q) : Prop :=
  head p = Some a ∧ last p = Some b ∧ walk_weight p = Some w.

(** The precondition of Dijkstra's algorithm. *)
Definition nonneg_weights : Prop :=
  ∀ u v e, edge_data G u v = Some e → (0 <= weight u v e)%Q.

(** The successors [items] of a settled node [y] have been relaxed. *)
Definition relaxed (st : DState) (y : string) (items : list (string * EdgeData))
  : Prop :=
  ∀ dy x e, dist st !! y = Some dy → (x, e) ∈ items →
            ∃ sx, seen st !! x = Some sx ∧ (sx <= dy + weight y x e)%Q.

(** No entry of [seen] has grown from [st] to [st']. *)
Definition seen_decreases (st st' : DState) : Prop :=
  ∀ z sz, seen st !! z = Some sz →
          ∃ sz', seen st' !! z = Some sz' ∧ (sz' <= sz)%Q.

(** The invariant of the search from [src], between two relaxations. *)
Record dinv (src : string) (st : DState) : Prop := mkDinv {
  dinv_fringe_seen : ∀ d c z, (d, c, z) ∈ fringe st →
      ∃ sz, seen st !! z = Some sz ∧ (sz <= d)%Q;
  dinv_seen_fringe : ∀ z sz, seen st !! z = Some sz → dist st !! z = None →
      ∃ c, (sz, c, z) ∈ fringe st;
  dinv_paths : ∀ z sz, seen st !! z = Some sz →
      ∃ p w, paths st !! z = Some p ∧ is_path src z p w ∧ (w == sz)%Q;
  dinv_dist_seen : ∀ z dz, dist st !! z = Some dz →
      ∃ sz, seen st !! z = Some sz ∧ (sz == dz)%Q;
  dinv_dist_opt : ∀ z dz, dist st !! z = Some dz →
      ∀ p w, is_path src z p w → (dz <= w)%Q;
  dinv_src : dist st !! src = None →
      ∃ s0, seen st !! src = Some s0 ∧ (s0 <= 0)%Q
}.

(** The invariant of the [while] loop: moreover every settled node has all
    its successors relaxed. *)
Definition loop_inv (src : string) (st : DState) : Prop :=
  dinv src st ∧ ∀ y succs, g_adj G !! y = Some succs → relaxed st y succs.
End Paths.

(** The other representation invariant of [networkx.DiGraph]: every node
    has an adjacency dictionary, and so has every successor in one. *)
Definition graph_closed (g : DiGraph) : Prop :=
  (∀ k, is_Some (g_node g !! k) → is_Some (g_adj g !! k)) ∧
  (∀ v succs u e, g_adj g !! v = Some succs → (u, e) ∈ succs →
                  is_Some (g_adj g !! u)).

Definition digraph_wf (g : DiGraph) : Prop := adj_nodup g ∧ graph_closed g.

(** The invariant maintained by every call. *)
Definition inv (s : FreightSimulation) : Prop :=
  wf s ∧ (no_blocked_edges s ∧ digraph_wf (graph s)).

Definition node_delay (s : FreightSimulation) (k : string) : option Q :=
  delay <$> nodes s !! k.
Definition node_blocked (s : FreightSimulation) (k : string) : option bool :=
  blocked <$> nodes s !! k.

Definition route_path (r : res (option Route)) : option (list string) :=
  match r with
  | Ok (Some route) => Some (path route)
  | _ => None
  end.

(** ** A small network used to exercise the statements

    Three seaports on the equator, [A → B → C], as loaded by [initialize]. *)

Definition demo_node (i : string) (la lo : Q) : Node :=
  mkNode i la lo i "seaport" None 0 false 0.

Definition demo_nodes : gmap string Node :=
  <["A" := demo_node "A" 0 0]>
    (<["B" := demo_node "B" 0 1]> (<["C" := demo_node "C" 0 2]> ∅)).

Definition demo_edges : list Edge :=
  [Edge_init "A" "B" "ship" 1 1 1; Edge_init "B" "C" "ship" 1 1 1].

Definition demo : FreightSimulation :=
  (initialize demo_nodes demo_edges FreightSimulation_init).2.

(** The same network after a dock strike has blocked [B]. *)
Definition demo_strike : FreightSimulation :=
  run_op (OpAddPainPoint "B" "strike" "Dock strike" 0 true) demo.

(** A 30-hour backlog announced at [A]. *)
Definition demo_backlog : FreightSimulation :=
  run_op (OpAddPainPoint "A" "congestion" "Backlog" 30 false) demo.

(** A 5-hour pain point at [A] that is removed after the port delay was
    set back to zero. *)
Definition demo_reset : FreightSimulation :=
  run_ops [OpAddPainPoint "A" "congestion" "Queue" 5 false;
           OpUpdatePortDelay "A" 0;
           OpRemovePainPoint 0] demo.

(** [B], blocked by the strike, then receives a second pain point that does
    not block. *)
Definition demo_strike_queue : FreightSimulation :=
  run_op (OpAddPainPoint "B" "congestion" "Queue" 0 false) demo_strike.


(** The route that consists of the single node [a]. *)
Definition trivial_route (a : string) : Route :=
  mkRoute [a] [] (mkMetrics 0 0 0 1).

(** A network with a detour: the direct leg [A → B] and the legs [A → C]
    and [C → B]; the last one is long but clean. *)
Definition detour_nodes : gmap string Node :=
  <["A" := demo_node "A" 0 0]>
    (<["B" := demo_node "B" 0 1]> (<["C" := demo_node "C" 1 0]> ∅)).

Definition detour_edges : list Edge :=
  [Edge_init "A" "B" "ship" 1 10 1;
   Edge_init "A" "C" "ship" 1 20 1;
   Edge_init "C" "B" "ship" 100 1 1].

Definition detour : FreightSimulation :=
  (initialize detour_nodes detour_edges FreightSimulation_init).2.

(** The detour network after [update_weights(-1, 2, 0)]: the magnitudes sum
    to 1, so they are kept, and duration now counts negatively. *)
Definition detour_negative : FreightSimulation :=
  run_op (OpUpdateWeights (Some (-1)%Q) (Some 2%Q) (Some 0%Q)) detour.

(** A decidable sufficient condition for [nonneg_weights]: the three
    objective weights and the three attributes of every edge of the graph
    are non-negative. *)
Definition edge_data_nonneg (e : EdgeData) : bool :=
  Qle_bool 0 (ed_duration e) && Qle_bool 0 (ed_emissions e) && Qle_bool 0 (ed_cost e).

Definition weights_nonneg (w : Weights) : bool :=
  Qle_bool 0 (w_duration w) && Qle_bool 0 (w_emissions w) && Qle_bool 0 (w_cost w).

Definition graph_nonneg (g : DiGraph) : bool :=
  map_fold (λ _ (succs : list (string * EdgeData)) b,
              forallb (λ ve, edge_data_nonneg ve.2) succs && b) true (g_adj g).

(** What is left for the loop of the search to do: the entries in the
    fringe plus the adjacency entries of the nodes not yet settled. *)
Definition unsettled_edges (adj : gmap string (list (string * EdgeData)))
    (settled : gmap string Q) : nat :=
  map_fold (λ v (succs : list (string * EdgeData)) n,
              match settled !! v with
              | Some _ => n
              | None => length succs + n
              end) 0 adj.

Definition loop_measure (G : DiGraph) (st : DState) : nat :=
  length (fringe st) + unsettled_edges (g_adj G) (dist st).

(** The route found from [A] to [C] in the three-port network. *)
Definition demo_route_AC : Route :=
  Eval vm_compute in
    match (find_shortest_path "A" "C" demo).1 with
    | Ok (Some r) => r
    | _ => trivial_route "A"
    end.

(** ** The builder as a function of the registry, the grid and the edges *)

(** Weather severity sampled at the midpoint of two nodes. *)
Definition edge_weather (wg : WeatherGrid) (src dst : Node) : Q :=
  get_severity wg ((lat src + lat dst) / 2)%Q ((lon src + lon dst) / 2)%Q.

(** What one loop iteration of [_build_graph] leaves in [self.edges] for the
    edge [e]: the edge with its current values recomputed, or the edge as it
    was when an endpoint is blocked (or not registered). *)
Definition built_edge (ns : gmap string Node) (wg : WeatherGrid) (e : Edge) : Edge :=
  match ns !! source e, ns !! destination e with
  | Some src, Some dst =>
      if blocked src || blocked dst then e
      else update_values (Some (edge_weather wg src dst)) e
  | _, _ => e
  end.

(** The attribute dictionary that the builder stores for an edge between
    the unblocked nodes [src] and [dst]. *)
Definition effective_edge_data (wg : WeatherGrid) (e : Edge) (src dst : Node)
  : EdgeData :=
  let e' := update_values (Some (edge_weather wg src dst)) e in
  to_edge_data e' (current_duration e' + delay src)%Q.

(** What one loop iteration does to the graph. *)
Definition add_built_edge (ns : gmap string Node) (wg : WeatherGrid)
    (g : DiGraph) (e : Edge) : DiGraph :=
  match ns !! source e, ns !! destination e with
  | Some src, Some dst =>
      if blocked src || blocked dst then g
      else add_edge (source e) (destination e) (effective_edge_data wg e src dst) g
  | _, _ => g
  end.

(** The parts of an edge that no operation changes. *)
Definition same_static (e e' : Edge) : Prop :=
  source e' = source e ∧ destination e' = destination e ∧ mode e' = mode e ∧
  base_duration e' = base_duration e ∧ base_emissions e' = base_emissions e ∧
  base_cost e' = base_cost e.

(** The parts of a node that no operation changes. *)
Definition same_identity (n n' : Node) : Prop :=
  id n' = id n ∧ lat n' = lat n ∧ lon n' = lon n ∧ name n' = name n ∧
  type n' = type n ∧ country n' = country n ∧
  connections_count n' = connections_count n.


(** [s'] has the registry and the edge list of [s] up to the mutable fields:
    the same node ids with the same identity, the same edges with the same
    endpoints, mode and base attributes. *)
Definition same_registry (s s' : FreightSimulation) : Prop :=
  (∀ k, is_Some (nodes s' !! k) ↔ is_Some (nodes s !! k)) ∧
  (∀ k n n', nodes s !! k = Some n → nodes s' !! k = Some n' → same_identity n n') ∧
  Forall2 same_static (edges s) (edges s').

(** ** IEEE binary64

    Python's [float] is an IEEE binary64 number: [spec_float] with
    precision 53 and maximal exponent 1024, rounding to nearest, ties to
    even. *)

Definition double : Type := spec_float.
Definition double_add : double → double → double := SFadd 53 1024.
Definition double_sub : double → double → double := SFsub 53 1024.
Definition double_div : double → double → double := SFdiv 53 1024.
Definition double_ltb : double → double → bool := SFltb.
Definition double_zero : double := S754_zero false.
Definition double_one : double := S754_finite false 4503599627370496 (-52).

(** The rational value of a binary64 number; infinities and NaN have none. *)
Definition double_to_Q (x : double) : option Q :=
  match x with
  | S754_zero _ => Some 0%Q
  | S754_finite s m e => Some (Qred (inject_Z (cond_Zopp s (Zpos m)) * 2 ^ e)%Q)
  | _ => None
  end.

(** The binary64 number [z / 2^k] rounds to. *)
Definition double_of_dyadic (z : Z) (k : Z) : double :=
  binary_normalize 53 1024 z (- k)%Z false.

(** The literals [0.5], [1e17] and [1e308]. *)
Definition double_0_5 : double := S754_finite false 4503599627370496 (-53).
Definition double_1e17 : double := S754_finite false 6250000000000000 4.
Definition double_1e308 : double := S754_finite false 5010420900022432 971.

(** [self.weights] with binary64 values. *)
Record WeightsD := mkWeightsD {
  wd_duration : double;
  wd_emissions : double;
  wd_cost : double
}.

(** [update_weights] over binary64; the arguments are the values of
    [float(duration)], [float(emissions)] and [float(cost)], and [sum]
    starts from 0 and adds the values in key order. *)
Definition update_weights_double (duration emissions cost : option double)
    (w : WeightsD) : WeightsD :=
  let w := mkWeightsD (default (wd_duration w) duration)
                      (default (wd_emissions w) emissions)
                      (default (wd_cost w) cost) in
  let total := double_add (double_add (double_add double_zero (wd_duration w))
                                      (wd_emissions w)) (wd_cost w) in
  if double_ltb double_zero total then
    mkWeightsD (double_div (wd_duration w) total)
               (double_div (wd_emissions w) total)
               (double_div (wd_cost w) total)
  else w.


(** The delay that [add_pain_point] ([delay += delay_increase]) followed by
    [remove_pain_point] of the same entry ([delay -= delay_increase]) leaves
    on a node, over binary64. *)
Definition add_remove_delay_double (delay delay_increase : double) : double :=
  double_sub (double_add delay delay_increase) delay_increase.


(** The binary64 round trip from the delay [a / 2^k] with the increase
    [d / 2^k] is exact: both numbers are held without rounding and the
    delay comes back. *)
Definition round_trip_exact (k a d : Z) : bool :=
  let delay := double_of_dyadic a k in
  let inc := double_of_dyadic d k in
  match double_to_Q delay, double_to_Q inc,
        double_to_Q (add_remove_delay_double delay inc) with
  | Some qa, Some qd, Some q =>
      Qeq_bool qa (inject_Z a / inject_Z (2 ^ k)) &&
      Qeq_bool qd (inject_Z d / inject_Z (2 ^ k)) &&
      Qeq_bool q qa
  | _, _, _ => false
  end.

(** The same for every delay from 0 to 24 hours and every increase from -48
    to 48 hours, in steps of [1 / 2^k] hours. *)
Definition round_trip_exact_on_hours (k : Z) : bool :=
  forallb (λ a, forallb (round_trip_exact k a)
                        (seqZ (- 48 * 2 ^ k) (96 * 2 ^ k + 1)))
          (seqZ 0 (24 * 2 ^ k + 1)).

(** The guard of [set_severity], [severity < 0 or severity > 1], over
    binary64: a comparison with NaN is false. *)
Definition severity_out_of_range_double (severity : double) : bool :=
  double_ltb severity double_zero || double_ltb double_one severity.

(** Magnitudes up to [2^52]: below it binary64 holds every integer, so the
    quotient by an integer grid size truncates to the same integer as the
    exact quotient. *)
Definition in_integer_range (x : Q) : Prop :=
  (- inject_Z (2 ^ 52) <= x <= inject_Z (2 ^ 52))%Q.

(** ** Proofs: the weather grid *)

Example get_block_key_pos :
  get_block_key (WeatherGrid_init 5) (25 # 2) (7 # 1) = (10%Z, 5%Z).
Proof. reflexivity. Qed.

Example get_block_key_neg :
  get_block_key (WeatherGrid_init 5) (-5 # 2) (-7 # 1) = (0%Z, (-5)%Z).
Proof. reflexivity. Qed.

Example floor_block_key_neg :
  floor_block_key (WeatherGrid_init 5) (-5 # 2) (-7 # 1) = ((-5)%Z, (-10)%Z).
Proof. reflexivity. Qed.

(** ** Proofs: the builder *)

Ltac unfold_M :=
  unfold update_node in *;
  unfold mbind, M_bind, bind, mret, M_ret, ret, raise, get, modify, node_at in *.

Ltac split_done := repeat (split; [done|]); try done.

Lemma same_overlay_refl s : same_overlay s s.
Proof. by repeat split. Qed.

Lemma same_overlay_trans s1 s2 s3 :
  same_overlay s1 s2 → same_overlay s2 s3 → same_overlay s1 s3.
Proof.
  intros (?&?&?&?&?&?) (?&?&?&?&?&?); repeat split; congruence.
Qed.

Lemma build_edge_overlay i e s : same_overlay s (build_edge i e s).2.
Proof.
  unfold build_edge; unfold_M.
  destruct (nodes s !! source e) as [src|]; simpl; [|apply same_overlay_refl].
  destruct (blocked src); simpl; [apply same_overlay_refl|].
  destruct (nodes s !! destination e) as [dst|]; simpl; [|apply same_overlay_refl].
  destruct (blocked dst); simpl; by repeat split.
Qed.

Lemma build_edges_overlay todo : ∀ i s, same_overlay s (build_edges i todo s).2.
Proof.
  induction todo as [|e todo IH]; intros i s; simpl.
  - apply same_overlay_refl.
  - unfold_M. pose proof (build_edge_overlay i e s) as H.
    destruct (build_edge i e s) as [[[]|x] s1]; simpl in *; [|done].
    eapply same_overlay_trans; [exact H|apply IH].
Qed.

Lemma build_graph_overlay s : same_overlay s (_build_graph s).2.
Proof.
  unfold _build_graph; unfold_M; simpl.
  match goal with |- same_overlay _ (build_edges 0 ?es ?s1).2 =>
    pose proof (build_edges_overlay es 0 s1) as H end.
  destruct H as (?&?&?&?&?&?); repeat split; simpl in *; congruence.
Qed.

Lemma dict_get_set {V} (k k' : string) (v : V) d :
  dict_get k' (dict_set k v d) = if decide (k = k') then Some v else dict_get k' d.
Proof.
  induction d as [|[k0 v0] d IH]; simpl.
  - repeat case_decide; congruence.
  - repeat (case_decide; simpl); try congruence.
Qed.

Lemma has_edge_touch_node n g a b :
  has_edge (touch_node n g) a b → has_edge g a b.
Proof.
  unfold touch_node, has_edge, edge_data.
  destruct (g_node g !! n); [done|]; simpl.
  destruct (decide (n = a)) as [->|Hne].
  - rewrite lookup_insert_eq; simpl. by intros [? ?].
  - by rewrite lookup_insert_ne.
Qed.

Lemma has_edge_add_edge u v d g a b :
  has_edge (add_edge u v d g) a b → (a = u ∧ b = v) ∨ has_edge g a b.
Proof.
  unfold add_edge. set (g1 := touch_node v (touch_node u g)).
  intros H.
  assert (has_edge g1 a b → has_edge g a b) as Hg1
    by (intros ?; eauto using has_edge_touch_node).
  unfold has_edge, edge_data in H; simpl in H.
  destruct (decide (u = a)) as [->|Hne].
  - rewrite lookup_insert_eq in H; simpl in H. rewrite dict_get_set in H.
    case_decide; [by left; subst|]. right. apply Hg1.
    unfold has_edge, edge_data.
    destruct (g_adj g1 !! a); simpl in *; [done|]. by destruct H.
  - rewrite lookup_insert_ne in H by done. right. by apply Hg1.
Qed.

Lemma g_node_touch_node n g k :
  is_Some (g_node g !! k) → is_Some (g_node (touch_node n g) !! k).
Proof.
  unfold touch_node. destruct (g_node g !! n) eqn:E; [done|]; simpl.
  intros H. destruct (decide (n = k)) as [->|]; [by rewrite lookup_insert_eq|].
  by rewrite lookup_insert_ne.
Qed.


Lemma add_nodes_spec (ns : gmap string Node) :
  let g := map_fold (λ k n g, add_node k n g) DiGraph_empty ns in
  (∀ k, is_Some (ns !! k) → is_Some (g_node g !! k)) ∧ (∀ a b, ¬ has_edge g a b).
Proof.
  apply (map_fold_weak_ind (λ g (m : gmap string Node),
    (∀ k, is_Some (m !! k) → is_Some (g_node g !! k)) ∧ (∀ a b, ¬ has_edge g a b))).
  - split; [intros k; rewrite lookup_empty; by intros [? ?]|].
    intros a b. unfold has_edge, edge_data; simpl. rewrite lookup_empty; simpl.
    by intros [? ?].
  - intros i x m g Hi [IH1 IH2]. split.
    + intros k. unfold add_node.
      destruct (decide (i = k)) as [->|Hne].
      * intros _. destruct (g_node g !! k); simpl; by rewrite lookup_insert_eq.
      * rewrite lookup_insert_ne by done. intros Hk%IH1.
        destruct (g_node g !! i); simpl; by rewrite lookup_insert_ne.
    + intros a b. unfold add_node. specialize (IH2 a b).
      destruct (g_node g !! i); [done|].
      unfold has_edge, edge_data in *; simpl.
      destruct (decide (i = a)) as [->|Hne].
      * rewrite lookup_insert_eq; simpl. by intros [? ?].
      * by rewrite lookup_insert_ne.
Qed.

(** One loop iteration of the builder succeeds on an edge between registered
    nodes, keeps all edges registered, only adds graph nodes, and adds an
    edge only between two unblocked nodes. *)
Lemma build_edge_spec i e s :
  edge_registered (nodes s) e →
  let s' := (build_edge i e s).2 in
  (build_edge i e s).1 = Ok tt ∧
  (Forall (edge_registered (nodes s)) (edges s) →
   Forall (edge_registered (nodes s)) (edges s')) ∧
  (∀ k, is_Some (g_node (graph s) !! k) → is_Some (g_node (graph s') !! k)) ∧
  (no_blocked_edges s → no_blocked_edges s').
Proof.
  intros [[src Hsrc] [dst Hdst]]. unfold build_edge; unfold_M.
  rewrite Hsrc; simpl. destruct (blocked src) eqn:Bs; simpl; [done|].
  rewrite Hdst; simpl. destruct (blocked dst) eqn:Bd; simpl; [done|].
  split; [done|]. split; [|split].
  - intros H. apply Forall_insert; [done|]. split; simpl; eauto.
  - intros k Hk. by do 2 apply g_node_touch_node.
  - intros H u v Huv. unfold no_blocked_edges, unblocked in *; simpl in *.
    apply has_edge_add_edge in Huv as [[-> ->]|Huv]; [split; eauto|eauto].
Qed.

Lemma build_edges_spec todo : ∀ i s,
  Forall (edge_registered (nodes s)) todo →
  let s' := (build_edges i todo s).2 in
  (build_edges i todo s).1 = Ok tt ∧
  (Forall (edge_registered (nodes s)) (edges s) →
   Forall (edge_registered (nodes s)) (edges s')) ∧
  (∀ k, is_Some (g_node (graph s) !! k) → is_Some (g_node (graph s') !! k)) ∧
  (no_blocked_edges s → no_blocked_edges s').
Proof.
  induction todo as [|e todo IH]; intros i s Htodo; simpl.
  - done.
  - apply Forall_cons in Htodo as [He Htodo].
    destruct (build_edge_spec i e s He) as (Hok & Hed & Hgn & Hnb).
    pose proof (build_edge_overlay i e s) as Hov.
    unfold_M. destruct (build_edge i e s) as [r s1]; simpl in *. subst r.
    destruct Hov as (Hn & _).
    destruct (IH (S i) s1) as (Hok' & Hed' & Hgn' & Hnb'); [by rewrite Hn|].
    rewrite Hn in *. split; [done|]. split; [|split]; eauto.
Qed.

(** [_build_graph] on a simulation whose edges join registered nodes. *)
Lemma build_graph_spec s :
  Forall (edge_registered (nodes s)) (edges s) →
  let s' := (_build_graph s).2 in
  (_build_graph s).1 = Ok tt ∧ same_overlay s s' ∧
  Forall (edge_registered (nodes s')) (edges s') ∧
  (∀ k, is_Some (nodes s' !! k) → is_Some (g_node (graph s') !! k)) ∧
  no_blocked_edges s'.
Proof.
  intros Hed. pose proof (build_graph_overlay s) as Hov.
  split; [|split; [exact Hov|]]; revert Hov;
    unfold _build_graph; unfold_M; simpl;
    destruct (add_nodes_spec (nodes s)) as [Hn Hne];
    match goal with |- context [build_edges 0 ?es ?s1] =>
      destruct (build_edges_spec es 0 s1) as (Hok & Hed' & Hgn & Hnb);
        [exact Hed|] end; simpl in *; intros (Hns & _).
  - done.
  - rewrite Hns. split; [by apply Hed'|]. split; [by eauto|].
    apply Hnb. intros u v Huv. by apply Hne in Huv.
Qed.

(** The builder keeps the keys of every adjacency dictionary distinct. *)
Lemma dict_set_keys {V} (k : string) (v : V) d x :
  x ∈ (dict_set k v d).*1 → x = k ∨ x ∈ d.*1.
Proof.
  induction d as [|[k0 v0] d IH]; simpl.
  - intros ->%list_elem_of_singleton. by left.
  - case_decide; simpl; subst.
    + intros [->|Hx]%elem_of_cons; [by left|]. right. by apply elem_of_cons; right.
    + intros [->|Hx]%elem_of_cons; [right; by apply elem_of_cons; left|].
      destruct (IH Hx) as [->|Hx']; [by left|]. right. by apply elem_of_cons; right.
Qed.

Lemma dict_set_nodup {V} (k : string) (v : V) d :
  NoDup d.*1 → NoDup (dict_set k v d).*1.
Proof.
  induction d as [|[k0 v0] d IH]; simpl.
  - intros _. apply NoDup_singleton.
  - rewrite NoDup_cons. intros [Hk0 Hd]. case_decide; simpl; subst.
    + by apply NoDup_cons.
    + apply NoDup_cons. split; [|by apply IH].
      intros [->|Hin]%dict_set_keys; done.
Qed.

Lemma adj_nodup_insert g g' k l :
  adj_nodup g → NoDup l.*1 → g_adj g' = <[k := l]> (g_adj g) → adj_nodup g'.
Proof.
  intros H Hl Heq v succs. rewrite Heq.
  destruct (decide (k = v)) as [->|Hne].
  - rewrite lookup_insert_eq. by intros [= <-].
  - rewrite lookup_insert_ne by done. apply (H v succs).
Qed.

Lemma adj_nodup_touch_node n g : adj_nodup g → adj_nodup (touch_node n g).
Proof.
  intros H. unfold touch_node. destruct (g_node g !! n); [done|].
  eapply adj_nodup_insert; [exact H| |reflexivity]. constructor.
Qed.

Lemma adj_nodup_add_edge u v d g : adj_nodup g → adj_nodup (add_edge u v d g).
Proof.
  intros H. unfold add_edge.
  pose proof (adj_nodup_touch_node v _ (adj_nodup_touch_node u g H)) as H1.
  eapply adj_nodup_insert; [exact H1| |reflexivity]. apply dict_set_nodup.
  destruct (g_adj _ !! u) as [l|] eqn:El; simpl; [by apply (H1 u l)|constructor].
Qed.

Lemma adj_nodup_add_nodes (ns : gmap string Node) :
  adj_nodup (map_fold (λ k n g, add_node k n g) DiGraph_empty ns).
Proof.
  apply (map_fold_weak_ind (λ g (_ : gmap string Node), adj_nodup g)).
  - intros v succs; simpl. by rewrite lookup_empty.
  - intros i x m g _ IH. unfold add_node.
    destruct (g_node g !! i).
    + intros v succs; simpl. apply (IH v succs).
    + eapply adj_nodup_insert; [exact IH| |reflexivity]. constructor.
Qed.

Lemma build_edge_adj_nodup i e s :
  adj_nodup (graph s) → adj_nodup (graph (build_edge i e s).2).
Proof.
  intros H. unfold build_edge; unfold_M.
  destruct (nodes s !! source e) as [src|]; simpl; [|done].
  destruct (blocked src); simpl; [done|].
  destruct (nodes s !! destination e) as [dst|]; simpl; [|done].
  destruct (blocked dst); simpl; [done|].
  by apply adj_nodup_add_edge.
Qed.

Lemma build_edges_adj_nodup todo : ∀ i s,
  adj_nodup (graph s) → adj_nodup (graph (build_edges i todo s).2).
Proof.
  induction todo as [|e todo IH]; intros i s H; simpl; [done|].
  pose proof (build_edge_adj_nodup i e s H) as H1. unfold_M.
  destruct (build_edge i e s) as [[[]|x] s1]; simpl in *; [|done].
  by apply IH.
Qed.

Lemma build_graph_adj_nodup s : adj_nodup (graph (_build_graph s).2).
Proof.
  unfold _build_graph; unfold_M; simpl.
  apply build_edges_adj_nodup; simpl. apply adj_nodup_add_nodes.
Qed.

(** The builder keeps the graph closed under successors. *)
Lemma dict_set_elem {V} (k : string) (v : V) d k' v' :
  (k', v') ∈ dict_set k v d → (k' = k ∧ v' = v) ∨ (k', v') ∈ d.
Proof.
  induction d as [|[k0 v0] d IH]; simpl.
  - intros [= -> ->]%list_elem_of_singleton. by left.
  - case_decide; subst.
    + intros [[= -> ->]|Hx]%elem_of_cons; [by left|].
      right. by apply elem_of_cons; right.
    + intros [[= -> ->]|Hx]%elem_of_cons; [right; by apply elem_of_cons; left|].
      destruct (IH Hx) as [?|Hx']; [by left|]. right. by apply elem_of_cons; right.
Qed.

Lemma is_Some_insert_mono {V} (m : gmap string V) k x k' :
  is_Some (m !! k') → is_Some (<[k := x]> m !! k').
Proof.
  intros Hk. destruct (decide (k = k')) as [->|];
    [by rewrite lookup_insert_eq|by rewrite lookup_insert_ne].
Qed.

Lemma graph_closed_new_node g n attr :
  graph_closed g →
  graph_closed (mkDiGraph (<[n := attr]> (g_node g)) (<[n := []]> (g_adj g))).
Proof.
  intros [H1 H2]. split; simpl.
  - intros k. destruct (decide (n = k)) as [->|Hne].
    + rewrite !lookup_insert_eq. by eauto.
    + rewrite !lookup_insert_ne by done. apply H1.
  - intros v succs u e. destruct (decide (n = v)) as [->|Hne].
    + rewrite lookup_insert_eq. intros [= <-] Hin. by apply elem_of_nil in Hin.
    + rewrite lookup_insert_ne by done. intros Hv Hin.
      apply is_Some_insert_mono. by apply (H2 v succs u e).
Qed.

Lemma graph_closed_touch_node n g :
  graph_closed g →
  graph_closed (touch_node n g) ∧ is_Some (g_adj (touch_node n g) !! n).
Proof.
  intros H. unfold touch_node. destruct (g_node g !! n) as [attr|] eqn:Hn.
  - split; [done|]. apply (proj1 H). by rewrite Hn.
  - split; [by apply graph_closed_new_node|]. simpl. by rewrite lookup_insert_eq.
Qed.

Lemma g_adj_touch_node n g k :
  is_Some (g_adj g !! k) → is_Some (g_adj (touch_node n g) !! k).
Proof.
  unfold touch_node. destruct (g_node g !! n); [done|]. simpl.
  apply is_Some_insert_mono.
Qed.

Lemma graph_closed_add_edge u v d g :
  graph_closed g → graph_closed (add_edge u v d g).
Proof.
  intros H. unfold add_edge.
  destruct (graph_closed_touch_node u g H) as [Hc1 Hu].
  destruct (graph_closed_touch_node v _ Hc1) as [[H1 H2] Hv].
  apply (g_adj_touch_node v) in Hu.
  set (g1 := touch_node v (touch_node u g)) in *.
  split; simpl.
  - intros k Hk. by apply is_Some_insert_mono, H1.
  - intros v0 succs u0 e. destruct (decide (u = v0)) as [<-|Hne].
    + rewrite lookup_insert_eq. intros [= <-] Hin. apply is_Some_insert_mono.
      apply dict_set_elem in Hin as [[-> _]|Hin]; [done|].
      destruct (g_adj g1 !! u) as [l|] eqn:El; simpl in Hin;
        [by apply (H2 u l u0 e)|by apply elem_of_nil in Hin].
    + rewrite lookup_insert_ne by done. intros Hv0 Hin.
      apply is_Some_insert_mono. by apply (H2 v0 succs u0 e).
Qed.

Lemma graph_closed_add_nodes (ns : gmap string Node) :
  graph_closed (map_fold (λ k n g, add_node k n g) DiGraph_empty ns).
Proof.
  apply (map_fold_weak_ind (λ g (_ : gmap string Node), graph_closed g)).
  - split; simpl; intros ?; rewrite lookup_empty; [by intros [? ?]|done].
  - intros i x m g _ IH. unfold add_node.
    destruct (g_node g !! i) as [attr|] eqn:Hi.
    + destruct IH as [H1 H2]. split; simpl; [|exact H2].
      intros k. destruct (decide (i = k)) as [->|Hne].
      * intros _. apply H1. by rewrite Hi.
      * rewrite lookup_insert_ne by done. apply H1.
    + by apply graph_closed_new_node.
Qed.

Lemma build_edge_graph_closed i e s :
  graph_closed (graph s) → graph_closed (graph (build_edge i e s).2).
Proof.
  intros H. unfold build_edge; unfold_M.
  destruct (nodes s !! source e) as [src|]; simpl; [|done].
  destruct (blocked src); simpl; [done|].
  destruct (nodes s !! destination e) as [dst|]; simpl; [|done].
  destruct (blocked dst); simpl; [done|].
  by apply graph_closed_add_edge.
Qed.

Lemma build_edges_graph_closed todo : ∀ i s,
  graph_closed (graph s) → graph_closed (graph (build_edges i todo s).2).
Proof.
  induction todo as [|e todo IH]; intros i s H; simpl; [done|].
  pose proof (build_edge_graph_closed i e s H) as H1. unfold_M.
  destruct (build_edge i e s) as [[[]|x] s1]; simpl in *; [|done].
  by apply IH.
Qed.

Lemma build_graph_digraph_wf s : digraph_wf (graph (_build_graph s).2).
Proof.
  split; [apply build_graph_adj_nodup|].
  unfold _build_graph; unfold_M; simpl.
  apply build_edges_graph_closed; simpl. apply graph_closed_add_nodes.
Qed.

(** ** Proofs: running the methods *)

Lemma bind_run {A B} (c : M A) (k : A → M B) s a s1 :
  c s = (Ok a, s1) → (c ≫= k) s = k a s1.
Proof. intros H. unfold_M. by rewrite H. Qed.

Lemma update_node_run k f s n :
  nodes s !! k = Some n →
  update_node k f s = (Ok tt, with_nodes (<[k := f n]> (nodes s)) s).
Proof. intros H. unfold_M. cbv beta. by rewrite H. Qed.

Lemma build_graph_run s :
  Forall (edge_registered (nodes s)) (edges s) →
  ∃ s', _build_graph s = (Ok tt, s') ∧ same_overlay s s' ∧
        Forall (edge_registered (nodes s')) (edges s') ∧
        (∀ k, is_Some (nodes s' !! k) → is_Some (g_node (graph s') !! k)) ∧
        (no_blocked_edges s' ∧ digraph_wf (graph s')).
Proof.
  intros H. destruct (build_graph_spec s H) as (Hok & Hrest).
  pose proof (build_graph_digraph_wf s) as Hnd.
  destruct (_build_graph s) as [r s'] eqn:E; simpl in *. subst r.
  exists s'. destruct Hrest as (?&?&?&?). split_done.
Qed.

Lemma edge_registered_insert ns k (n n' : Node) e :
  ns !! k = Some n → edge_registered ns e → edge_registered (<[k := n']> ns) e.
Proof.
  intros Hk [H1 H2]. split.
  - destruct (decide (k = source e)) as [->|];
      [by rewrite lookup_insert_eq|by rewrite lookup_insert_ne].
  - destruct (decide (k = destination e)) as [->|];
      [by rewrite lookup_insert_eq|by rewrite lookup_insert_ne].
Qed.

Lemma is_Some_insert_existing (ns : gmap string Node) k n n' k' :
  ns !! k = Some n → is_Some (ns !! k') → is_Some (<[k := n']> ns !! k').
Proof.
  intros Hk H. destruct (decide (k = k')) as [->|];
    [by rewrite lookup_insert_eq|by rewrite lookup_insert_ne].
Qed.

(** [update_port_delay] on a registered node. *)
Lemma update_port_delay_run nid h s n :
  Forall (edge_registered (nodes s)) (edges s) →
  nodes s !! nid = Some n →
  ∃ s', update_port_delay nid h s = (Ok tt, s') ∧
        nodes s' = <[nid := set_delay (py_max 0 (py_min 24 h)) n]> (nodes s) ∧
        pain_points s' = pain_points s ∧ weights s' = weights s ∧
        weather_grid s' = weather_grid s ∧ initialized s' = initialized s ∧
        Forall (edge_registered (nodes s')) (edges s') ∧
        (∀ k, is_Some (nodes s' !! k) → is_Some (g_node (graph s') !! k)) ∧
        (no_blocked_edges s' ∧ digraph_wf (graph s')).
Proof.
  intros Hed Hn. unfold update_port_delay.
  erewrite bind_run by reflexivity.
  rewrite decide_True by (by rewrite Hn).
  erewrite bind_run by (by apply update_node_run).
  match goal with |- context [_build_graph ?s1] =>
    destruct (build_graph_run s1) as (s' & Hrun & Hov & Hed' & Hgn & Hnb) end.
  { simpl. eapply Forall_impl; [exact Hed|]. intros e.
    by apply edge_registered_insert with n. }
  exists s'. destruct Hov as (?&?&?&?&?&?). simpl in *. split_done.
Qed.

(** [add_pain_point] on a registered node: the node's delay grows by the
    increase and its blocked flag is overwritten by the argument. *)
Lemma add_pain_point_run nid ev nm d b s n :
  Forall (edge_registered (nodes s)) (edges s) →
  nodes s !! nid = Some n →
  ∃ s', add_pain_point nid ev nm d b s = (Ok true, s') ∧
        nodes s' = <[nid := set_blocked b (set_delay (delay n + d)%Q n)]> (nodes s) ∧
        pain_points s' = pain_points s ++ [mkPainPoint nid ev nm d b] ∧
        weights s' = weights s ∧
        weather_grid s' = weather_grid s ∧ initialized s' = initialized s ∧
        Forall (edge_registered (nodes s')) (edges s') ∧
        (∀ k, is_Some (nodes s' !! k) → is_Some (g_node (graph s') !! k)) ∧
        (no_blocked_edges s' ∧ digraph_wf (graph s')).
Proof.
  intros Hed Hn. unfold add_pain_point.
  erewrite bind_run by reflexivity.
  rewrite decide_True by (by rewrite Hn).
  erewrite bind_run by reflexivity.
  erewrite bind_run by (by apply update_node_run).
  erewrite bind_run by (apply update_node_run; simpl; apply lookup_insert_eq).
  match goal with |- context [(_build_graph ≫= _) ?s1] =>
    destruct (build_graph_run s1) as (s' & Hrun & Hov & Hed' & Hgn & Hnb) end.
  { simpl. rewrite insert_insert_eq. eapply Forall_impl; [exact Hed|]. intros e.
    by apply edge_registered_insert with n. }
  erewrite bind_run by exact Hrun.
  exists s'. destruct Hov as (Hns&?&?&?&?&?). simpl in *.
  rewrite insert_insert_eq in Hns. split_done.
Qed.

Lemma still_blocking_run nid pps : ∀ s n,
  nodes s !! nid = Some n →
  still_blocking nid pps s =
    (Ok tt, if blocked_by_pain_points nid pps
            then with_nodes (<[nid := set_blocked true n]> (nodes s)) s else s).
Proof.
  induction pps as [|pp pps IH]; intros s n Hn; simpl; [done|].
  destruct (bool_decide (node_id pp = nid) && pp_blocked pp); simpl.
  - by apply update_node_run.
  - by apply IH.
Qed.

(** [remove_pain_point] at a valid index: the entry is removed, its delay
    increase subtracted, and the node's blocked flag recomputed from the
    remaining pain points. *)
Lemma remove_pain_point_run index s pp n :
  Forall (edge_registered (nodes s)) (edges s) →
  pain_points s !! Z.to_nat index = Some pp →
  (0 ≤ index)%Z →
  nodes s !! node_id pp = Some n →
  let pps' := delete (Z.to_nat index) (pain_points s) in
  ∃ s', remove_pain_point index s = (Ok true, s') ∧
        nodes s' = <[node_id pp :=
                       set_blocked (blocked_by_pain_points (node_id pp) pps')
                         (set_delay (delay n - delay_increase pp)%Q n)]> (nodes s) ∧
        pain_points s' = pps' ∧ weights s' = weights s ∧
        weather_grid s' = weather_grid s ∧ initialized s' = initialized s ∧
        Forall (edge_registered (nodes s')) (edges s') ∧
        (∀ k, is_Some (nodes s' !! k) → is_Some (g_node (graph s') !! k)) ∧
        (no_blocked_edges s' ∧ digraph_wf (graph s')).
Proof.
  intros Hed Hpp Hi Hn pps'. unfold remove_pain_point.
  erewrite bind_run by reflexivity.
  apply lookup_lt_Some in Hpp as Hlt.
  rewrite !bool_decide_eq_true_2 by lia. simpl. rewrite Hpp.
  erewrite bind_run by reflexivity.
  erewrite bind_run by (by apply update_node_run).
  erewrite bind_run by (apply update_node_run; simpl; apply lookup_insert_eq).
  erewrite bind_run by reflexivity.
  erewrite bind_run
    by (apply still_blocking_run with (n := set_blocked false
          (set_delay (delay n - delay_increase pp)%Q n)); simpl;
        apply lookup_insert_eq).
  simpl. fold pps'.
  match goal with |- context [(_build_graph ≫= _) ?s1] =>
    destruct (build_graph_run s1) as (s' & Hrun & Hov & Hed' & Hgn & Hnb) end.
  { destruct (blocked_by_pain_points (node_id pp) pps'); simpl;
      rewrite ?insert_insert_eq; (eapply Forall_impl; [exact Hed|]); intros e;
      by apply edge_registered_insert with n. }
  erewrite bind_run by exact Hrun.
  exists s'. destruct Hov as (Hns&Hps&?&?&?&?).
  destruct (blocked_by_pain_points (node_id pp) pps'); simpl in *;
    rewrite ?insert_insert_eq in Hns; split_done.
Qed.

(** [find_shortest_path] only ever writes [current_route]. *)
Lemma find_shortest_path_state a b s :
  ∃ r, (find_shortest_path a b s).2 = with_current_route r s.
Proof.
  assert (s = with_current_route (current_route s) s) as Hs by by destruct s.
  unfold find_shortest_path; unfold_M; simpl.
  destruct (initialized s); simpl; [|by eauto].
  destruct (nodes s !! a) as [src|]; [|by eauto].
  destruct (nodes s !! b) as [tgt|]; [|by eauto].
  destruct (blocked src || blocked tgt); [by eauto|].
  destruct (dijkstra_path _ _ _ _) as [p|[]]; try by eauto.
  destruct (path_metrics _ _ _ _ _ _) as [[[[? ?] ?] ?]|]; simpl; by eauto.
Qed.

Lemma update_weights_state d e c s :
  ∃ w, update_weights d e c s = (Ok tt, with_weights w s).
Proof.
  unfold update_weights; unfold_M; simpl.
  match goal with |- context [Qltb 0 ?t] => destruct (Qltb 0 t) end;
    simpl; by eauto.
Qed.


Lemma inv_initialize ns es :
  Forall (edge_registered ns) es →
  (initialize ns es FreightSimulation_init).1 = Ok tt ∧
  inv (initialize ns es FreightSimulation_init).2.
Proof.
  intros Hed. unfold initialize.
  erewrite bind_run by reflexivity.
  match goal with |- context [(_build_graph ≫= _) ?s1] =>
    destruct (build_graph_run s1) as (s' & Hrun & Hov & Hed' & Hgn & Hnb) end;
    [done|].
  erewrite bind_run by exact Hrun. simpl.
  destruct Hov as (Hns & Hps & _). simpl in *.
  split; [done|]. split; [split|]; simpl; try done.
  rewrite Hps. constructor.
Qed.

Lemma inv_run_op op s : inv s → inv (run_op op s).
Proof.
  intros [[Hi Hed Hpp Hgn] Hnb]. destruct op; simpl.
  - (* update_weather *)
    unfold update_weather. erewrite bind_run by reflexivity.
    destruct (set_severity _ _ _ _) as [w|x]; [|done].
    erewrite bind_run by reflexivity.
    match goal with |- context [_build_graph ?s1] =>
      destruct (build_graph_run s1) as (s' & Hrun & Hov & Hed' & Hgn' & Hnb') end;
      [done|].
    rewrite Hrun; simpl. destruct Hov as (Hns & Hps & ? & ? & Hin & ?).
    simpl in *. split; [split|]; try done; [congruence|].
    by rewrite Hps, Hns.
  - (* update_port_delay *)
    destruct (nodes s !! nid) as [n|] eqn:Hn.
    + destruct (update_port_delay_run nid delay_hours s n Hed Hn)
        as (s' & -> & Hns & Hps & ? & ? & Hin & ? & ? & ?); simpl.
      split; [split|]; try done; [congruence|].
      rewrite Hps, Hns. eapply Forall_impl; [exact Hpp|]. intros pp; simpl.
      by apply is_Some_insert_existing with n.
    + unfold update_port_delay. erewrite bind_run by reflexivity.
      rewrite decide_False by (rewrite Hn; by intros [? ?]). by simpl.
  - (* add_pain_point *)
    destruct (nodes s !! nid) as [n|] eqn:Hn.
    + destruct (add_pain_point_run nid event name0 delay_inc blk s n Hed Hn)
        as (s' & -> & Hns & Hps & ? & ? & Hin & ? & ? & ?); simpl.
      split; [split|]; try done; [congruence|].
      rewrite Hps, Hns. apply Forall_app. split.
      * eapply Forall_impl; [exact Hpp|]. intros pp; simpl.
        by apply is_Some_insert_existing with n.
      * apply Forall_singleton; simpl. by rewrite lookup_insert_eq.
    + unfold add_pain_point. erewrite bind_run by reflexivity.
      rewrite decide_False by (rewrite Hn; by intros [? ?]). by simpl.
  - (* remove_pain_point *)
    destruct (decide (0 ≤ index < Z.of_nat (length (pain_points s)))%Z) as [Hix|Hix].
    + destruct (lookup_lt_is_Some_2 (pain_points s) (Z.to_nat index)) as [pp Hpi];
        [lia|].
      assert (is_Some (nodes s !! node_id pp)) as [n Hn].
      { eapply (Forall_lookup_1 _ _ _ _ Hpp Hpi). }
      destruct (remove_pain_point_run index s pp n Hed Hpi (proj1 Hix) Hn)
        as (s' & -> & Hns & Hps & ? & ? & Hin & ? & ? & ?); simpl.
      split; [split|]; try done; [congruence|].
      rewrite Hps, Hns. apply Forall_delete.
      eapply Forall_impl; [exact Hpp|]. intros pp'; simpl.
      by apply is_Some_insert_existing with n.
    + unfold remove_pain_point. erewrite bind_run by reflexivity.
      destruct (bool_decide (0 ≤ index)%Z) eqn:E1; simpl; [|done].
      destruct (bool_decide (index < _)%Z) eqn:E2; simpl; [|done].
      apply bool_decide_eq_true in E1, E2. lia.
  - (* update_weights *)
    destruct (update_weights_state duration emissions cost s) as [w ->]; simpl.
    split; [by split|]. exact Hnb.
  - (* find_shortest_path *)
    destruct (find_shortest_path_state source_id target_id s) as [r ->]; simpl.
    split; [by split|]. exact Hnb.
Qed.

Lemma reachable_inv s : reachable s → inv s.
Proof.
  induction 1 as [ns es Hed|s op _ IH].
  - by apply inv_initialize.
  - by apply inv_run_op.
Qed.

(** The builder never adds an edge at a blocked node, also when it stops
    early on an edge whose endpoint is not registered. *)
Lemma build_edge_no_blocked i e s :
  no_blocked_edges s → no_blocked_edges (build_edge i e s).2.
Proof.
  intros H. unfold build_edge; unfold_M.
  destruct (nodes s !! source e) as [src|] eqn:Hsrc; simpl; [|done].
  destruct (blocked src) eqn:Bs; simpl; [done|].
  destruct (nodes s !! destination e) as [dst|] eqn:Hdst; simpl; [|done].
  destruct (blocked dst) eqn:Bd; simpl; [done|].
  intros u v Huv. unfold no_blocked_edges, unblocked in *; simpl in *.
  apply has_edge_add_edge in Huv as [[-> ->]|Huv]; [split; eauto|eauto].
Qed.

Lemma build_edges_no_blocked todo : ∀ i s,
  no_blocked_edges s → no_blocked_edges (build_edges i todo s).2.
Proof.
  induction todo as [|e todo IH]; intros i s H; simpl; [done|].
  pose proof (build_edge_no_blocked i e s H) as H1. unfold_M.
  destruct (build_edge i e s) as [[[]|x] s1]; simpl in *; [|done].
  by apply IH.
Qed.

Lemma build_graph_no_blocked s : no_blocked_edges (_build_graph s).2.
Proof.
  unfold _build_graph; unfold_M; simpl.
  apply build_edges_no_blocked. intros u v Huv; simpl in Huv.
  by apply (proj2 (add_nodes_spec (nodes s))) in Huv.
Qed.

Lemma demo_edges_registered : Forall (edge_registered demo_nodes) demo_edges.
Proof. repeat constructor; by vm_compute; eexists. Qed.

Lemma demo_reachable : reachable demo.
Proof. apply reach_initialize, demo_edges_registered. Qed.

Lemma demo_strike_reachable : reachable demo_strike.
Proof. apply reach_op, demo_reachable. Qed.

Example demo_route :
  route_path (find_shortest_path "A" "C" demo).1 = Some ["A"; "B"; "C"].
Proof. vm_compute. reflexivity. Qed.

Example demo_strike_no_route :
  (find_shortest_path "A" "C" demo_strike).1 = Ok None.
Proof. vm_compute. reflexivity. Qed.

Example demo_strike_lifted :
  route_path (find_shortest_path "A" "C" (run_op (OpRemovePainPoint 0) demo_strike)).1
  = Some ["A"; "B"; "C"].
Proof. vm_compute. reflexivity. Qed.

(** ** The weather grid key *)

Lemma py_int_nonneg x : (0 <= x)%Q → py_int x = py_floor x.
Proof.
  destruct x as [n d]. unfold Qle, py_int, py_floor; simpl. intros H.
  apply Z.quot_div_nonneg; lia.
Qed.

(** On non-negative coordinates truncation and floor division agree. *)
Lemma get_block_key_nonneg w la lo :
  (0 < grid_size w)%Z → (0 <= la)%Q → (0 <= lo)%Q →
  get_block_key w la lo = floor_block_key w la lo.
Proof.
  intros Hg Hla Hlo. unfold get_block_key, floor_block_key.
  assert (0 < inject_Z (grid_size w))%Q as Hq
    by (unfold Qlt, inject_Z; simpl; lia).
  assert (∀ x, (0 <= x)%Q → (0 <= x / inject_Z (grid_size w))%Q) as Hdiv.
  { intros x Hx. apply Qle_shift_div_l; [done|]. by rewrite Qmult_0_l. }
  by rewrite !py_int_nonneg by auto.
Qed.

(** C6 (the code departs from the claim): [get_block_key] truncates the
    quotient toward zero instead of floor-dividing.  With the default
    5-degree grid, latitude -2.5 and latitude 2.5 get the same block key
    [(0, 0)], although their floor-division quotients, -1 and 0, differ;
    floor division would put latitude -2.5 into block -5. *)
Theorem get_block_key_truncates_toward_zero :
  let w := WeatherGrid_init WEATHER_GRID_SIZE in
  get_block_key w (-5 # 2) 0 = (0, 0)%Z ∧
  get_block_key w (5 # 2) 0 = (0, 0)%Z ∧
  py_floor ((-5 # 2) / inject_Z (grid_size w)) = (-1)%Z ∧
  py_floor ((5 # 2) / inject_Z (grid_size w)) = 0%Z ∧
  floor_block_key w (-5 # 2) 0 = (-5, 0)%Z.
Proof. repeat split; reflexivity. Qed.

(** ** Pain points and the blocked flag *)

(** C2 (the code departs from the claim): [add_pain_point] overwrites the
    blocked flag with its argument.  Node [B] is blocked by the strike; adding
    a pain point with [blocked=False] leaves it unblocked although the
    strike is still in the list, where the claim requires
    [False OR True = True]. *)
Theorem add_pain_point_overwrites_blocked :
  node_blocked demo_strike "B" = Some true ∧
  node_blocked demo_strike_queue "B" = Some false ∧
  blocked_by_pain_points "B" (pain_points demo_strike_queue) = true.
Proof. repeat split; vm_compute; reflexivity. Qed.




(** ** Node delay *)

(** C4 (the code departs from the claim): only [update_port_delay] clamps.
    [add_pain_point] adds its increase without a ceiling, so a 30-hour
    backlog on a node with delay 0 leaves delay 30 > 24; and
    [remove_pain_point] subtracts without a floor, so removing a 5-hour pain
    point after the delay was set to 0 leaves delay -5 < 0. *)
Theorem pain_point_delay_not_clamped :
  node_delay demo "A" = Some 0%Q ∧
  (∃ d, node_delay demo_backlog "A" = Some d ∧ (d == 30)%Q ∧ (24 < d)%Q) ∧
  (∃ d, node_delay demo_reset "A" = Some d ∧ (d == -5)%Q ∧ (d < 0)%Q).
Proof.
  split; [vm_compute; reflexivity|].
  split; eexists; (split; [vm_compute; reflexivity|]); split; reflexivity.
Qed.

(** What the clamp of [update_port_delay] does guarantee: right after the
    call the node's delay lies in [0, 24]. *)
Lemma py_clamp_range h : (0 <= py_max 0 (py_min 24 h) <= 24)%Q.
Proof.
  unfold py_max, py_min.
  destruct (Qlt_le_dec h 24); destruct (Qlt_le_dec 0 _); split; lra.
Qed.

Lemma update_port_delay_clamps nid h s n :
  wf s → nodes s !! nid = Some n →
  ∃ s' n', update_port_delay nid h s = (Ok tt, s') ∧
           nodes s' !! nid = Some n' ∧ (0 <= delay n' <= 24)%Q.
Proof.
  intros [Hi Hed Hpp Hgn] Hn.
  destruct (update_port_delay_run nid h s n Hed Hn) as (s' & Hrun & Hns & _).
  eexists s', _. split; [done|]. rewrite Hns, lookup_insert_eq.
  split; [done|]. apply py_clamp_range.
Qed.

(** ** The effective graph and blocked nodes *)

(** C7: every rebuild yields a graph without an edge at a blocked node, and
    therefore no reachable state of the simulation (after any sequence of
    weather, delay, pain-point and weight updates and of queries) has an
    edge whose source or destination is blocked.  Such edges are absent
    from the adjacency structure, not present with a large weight. *)
Theorem effective_graph_excludes_blocked :
  (∀ s u v, has_edge (graph (_build_graph s).2) u v →
            unblocked (_build_graph s).2 u ∧ unblocked (_build_graph s).2 v) ∧
  (∀ s, reachable s →
        ∀ u v, has_edge (graph s) u v → unblocked s u ∧ unblocked s v).
Proof.
  split.
  - intros s. apply build_graph_no_blocked.
  - intros s Hs. by apply reachable_inv in Hs as [_ [Hnb _]].
Qed.

Lemma effective_graph_excludes_blocked_witness :
  unblocked demo "A" ∧ unblocked demo "B".
Proof.
  apply (proj2 effective_graph_excludes_blocked demo).
  - apply reach_initialize, demo_edges_registered.
  - vm_compute. eexists. reflexivity.
Defined.

Example demo_strike_drops_both_edges :
  edge_data (graph demo) "A" "B" ≠ None ∧
  edge_data (graph demo_strike) "A" "B" = None ∧
  edge_data (graph demo_strike) "B" "C" = None.
Proof. repeat split; vm_compute; congruence. Qed.

(** ** Objective weights *)

(** What [update_weights] leaves in [self.weights]. *)
Lemma update_weights_run d e c s :
  let w0 := mkWeights (default (w_duration (weights s)) d)
                      (default (w_emissions (weights s)) e)
                      (default (w_cost (weights s)) c) in
  let total := (0 + w_duration w0 + w_emissions w0 + w_cost w0)%Q in
  update_weights d e c s =
    (Ok tt, with_weights
              (if Qltb 0 total
               then mkWeights (w_duration w0 / total) (w_emissions w0 / total)
                              (w_cost w0 / total)
               else w0) s).
Proof.
  intros w0 total. unfold update_weights; unfold_M; simpl.
  subst total w0; simpl. by destruct (Qltb _ _).
Qed.




(** The same call over binary64: the sum is 0.0, which is not above 0. *)
Example update_weights_double_zero w :
  update_weights_double (Some double_zero) (Some double_zero) (Some double_zero) w
  = mkWeightsD double_zero double_zero double_zero.
Proof. vm_compute. reflexivity. Qed.

(** When the sum is not positive the weights stay as supplied. *)
Lemma update_weights_nonpositive_total s d e c :
  (default (w_duration (weights s)) d + default (w_emissions (weights s)) e
   + default (w_cost (weights s)) c <= 0)%Q →
  weights (update_weights d e c s).2 =
    mkWeights (default (w_duration (weights s)) d)
              (default (w_emissions (weights s)) e)
              (default (w_cost (weights s)) c).
Proof.
  intros Hle. rewrite update_weights_run; simpl.
  unfold Qltb. destruct (Qlt_le_dec _ _) as [Hlt|?]; simpl in *; [lra|done].
Qed.

(** The binary64 literals are what they are called: [0.5], [1e17] and [1]
    exactly, and the double nearest to [10^308] (within half a unit in the
    last place, [2^970]). *)
Example double_literals :
  double_to_Q double_0_5 = Some (1 # 2)%Q ∧
  double_to_Q double_1e17 = Some (100000000000000000 # 1)%Q ∧
  double_to_Q double_one = Some 1%Q ∧
  valid_binary 53 1024 double_0_5 = true ∧
  valid_binary 53 1024 double_1e17 = true ∧
  valid_binary 53 1024 double_1e308 = true.
Proof. vm_compute. repeat split. Qed.

Example double_1e308_nearest :
  match double_to_Q double_1e308 with
  | Some v => (v - inject_Z (2 ^ 970) <= inject_Z (10 ^ 308)
               <= v + inject_Z (2 ^ 970))%Q
  | None => False
  end.
Proof. vm_compute. split; discriminate. Qed.

(** Beyond the range of C8: [update_weights(1e308, 1e308, 0)] sums to
    [inf], which passes [total > 0], and every weight divided by [inf] is
    0; the positive magnitudes end as (0, 0, 0). *)
Lemma update_weights_double_overflow w :
  update_weights_double (Some double_1e308) (Some double_1e308) (Some double_zero) w
  = mkWeightsD double_zero double_zero double_zero.
Proof. vm_compute. reflexivity. Qed.

(** Within the range, binary64 normalises as the rationals do, here without
    any rounding: [update_weights(1, 1, 2)] gives (0.25, 0.25, 0.5). *)
Example update_weights_double_exact w :
  update_weights_double (Some double_one) (Some double_one)
                        (Some (double_of_dyadic 2 0)) w
  = mkWeightsD (double_of_dyadic 1 2) (double_of_dyadic 1 2) (double_of_dyadic 1 1).
Proof. vm_compute. reflexivity. Qed.

(** ** Adding and removing a pain point *)



(** C10, as stated for every delay increase, fails: on a node whose delay
    is 0.5 hours (as [update_port_delay(n, 0.5)] leaves it), the pain point
    with [delay_increase = 1e17] is absorbed: [0.5 + 1e17] is [1e17] in
    binary64, and [1e17 - 1e17] leaves the delay 0.0, not 0.5. *)
Lemma add_remove_pain_point_delay_absorbed :
  double_to_Q double_0_5 = Some (1 # 2)%Q ∧
  double_to_Q double_1e17 = Some (100000000000000000 # 1)%Q ∧
  double_add double_0_5 double_1e17 = double_1e17 ∧
  add_remove_delay_double double_0_5 double_1e17 = double_zero ∧
  double_to_Q (add_remove_delay_double double_0_5 double_1e17)
  ≠ double_to_Q double_0_5.
Proof. vm_compute. repeat split. discriminate. Qed.

(** An infinite increase (the JSON number [1e999]) is not undone either:
    [0 + inf - inf] is NaN. *)
Example add_remove_pain_point_delay_infinite :
  add_remove_delay_double double_zero (S754_infinity false) = S754_nan.
Proof. reflexivity. Qed.

(** On the grid of C10 the binary64 round trip is exact; checked here for
    every delay from 0 to 24 hours and every increase from -48 to 48 hours
    in half hours. *)
Example round_trip_exact_half_hours : round_trip_exact_on_hours 1 = true.
Proof. vm_compute. reflexivity. Qed.

(** ** Queries that do not search *)

(** C9, as the code has it: for a registered node that is not blocked,
    [find_shortest_path(a, a)] returns the single-node path [[a]] with no
    edges, zero duration, emissions and cost and node count 1, and caches it
    as the current route. *)
Theorem find_shortest_path_same_node s a n :
  wf s →
  nodes s !! a = Some n →
  blocked n = false →
  find_shortest_path a a s =
    (Ok (Some (trivial_route a)), with_current_route (Some (trivial_route a)) s).
Proof.
  intros [Hi Hed Hpp Hgn] Hn Hb.
  destruct (Hgn a) as [attr Hattr]; [by eauto|].
  unfold find_shortest_path; unfold_M; simpl.
  rewrite Hi, Hn, Hb; simpl.
  unfold dijkstra_path. rewrite Hattr, decide_True by done. by simpl.
Qed.

Lemma find_shortest_path_same_node_witness :
  find_shortest_path "A" "A" demo_strike =
    (Ok (Some (trivial_route "A")),
     with_current_route (Some (trivial_route "A")) demo_strike).
Proof.
  apply (find_shortest_path_same_node demo_strike "A" (demo_node "A" 0 0)).
  - apply reachable_inv, demo_strike_reachable.
  - vm_compute. reflexivity.
  - reflexivity.
Defined.

(** C9, as stated, fails on a registered node that is blocked: the guard on
    blocked endpoints returns [None] before any path is built. *)
Lemma find_shortest_path_same_node_blocked :
  is_Some (nodes demo_strike !! "B") ∧
  (find_shortest_path "B" "B" demo_strike).1 = Ok None.
Proof. split; [by vm_compute; eexists|vm_compute; reflexivity]. Qed.

(** C5, as the code has it: an unregistered id does not raise; the call
    returns [None] and leaves the object untouched, which is exactly the
    outcome when both nodes are registered and one of them is blocked, and
    the value returned when the search raises [NetworkXNoPath]. *)
Theorem find_shortest_path_unknown_returns_none s a b :
  initialized s = true →
  (nodes s !! a = None ∨ nodes s !! b = None →
   find_shortest_path a b s = (Ok None, s)) ∧
  (∀ na nb, nodes s !! a = Some na → nodes s !! b = Some nb →
            blocked na || blocked nb = true →
            find_shortest_path a b s = (Ok None, s)) ∧
  (∀ na nb, nodes s !! a = Some na → nodes s !! b = Some nb →
            dijkstra_path (graph s) (weight_function (weights s)) b a
              = Raise NetworkXNoPath →
            find_shortest_path a b s = (Ok None, s)).
Proof.
  intros Hi. unfold find_shortest_path; unfold_M; simpl. rewrite Hi; simpl.
  split; [|split].
  - intros [-> | Hb]; [done|]. rewrite Hb. by destruct (nodes s !! a).
  - intros na nb -> -> ->. done.
  - intros na nb -> -> ->. by destruct (blocked na || blocked nb).
Qed.

Lemma find_shortest_path_unknown_returns_none_witness :
  find_shortest_path "Z" "A" demo = (Ok None, demo).
Proof.
  apply (find_shortest_path_unknown_returns_none demo "Z" "A").
  - reflexivity.
  - left. vm_compute. reflexivity.
Defined.

(** C5, as stated, fails: for the unregistered id ["Z"] no exception is
    raised, and the result is the very [None] that a query through the
    blocked node [B] and a query with no path ([C] to [A]) return. *)
Lemma unknown_node_same_as_no_route :
  nodes demo !! "Z" = None ∧
  (find_shortest_path "Z" "A" demo).1 = Ok None ∧
  (find_shortest_path "A" "C" demo_strike).1 = (find_shortest_path "Z" "A" demo).1 ∧
  (find_shortest_path "C" "A" demo).1 = (find_shortest_path "Z" "A" demo).1.
Proof. repeat split; vm_compute; reflexivity. Qed.

(** ** The search: [heappop] returns a least entry *)

Lemma entry_lt_false_le (m x : entry) : entry_lt m x = false → (x.1.1 <= m.1.1)%Q.
Proof.
  unfold entry_lt. destruct (Qcompare_spec m.1.1 x.1.1) as [H|H|H].
  - intros _. rewrite H. apply Qle_refl.
  - discriminate.
  - intros _. by apply Qlt_le_weak.
Qed.

Lemma entry_lt_true_le (m x : entry) : entry_lt m x = true → (m.1.1 <= x.1.1)%Q.
Proof.
  unfold entry_lt. destruct (Qcompare_spec m.1.1 x.1.1) as [H|H|H].
  - intros _. rewrite H. apply Qle_refl.
  - intros _. by apply Qlt_le_weak.
  - discriminate.
Qed.

Lemma heappop_None h : heappop h = None → h = [].
Proof.
  destruct h as [|x h]; [done|]; simpl.
  destruct (heappop h) as [[m r]|]; [destruct (entry_lt m x)|]; done.
Qed.

Lemma heappop_spec h m r :
  heappop h = Some (m, r) →
  h ≡ₚ m :: r ∧ ∀ x, x ∈ h → (m.1.1 <= x.1.1)%Q.
Proof.
  revert m r. induction h as [|x h IH]; intros m r; simpl; [done|].
  destruct (heappop h) as [[m' r']|] eqn:E.
  - destruct (IH m' r' eq_refl) as [Hperm Hmin].
    destruct (entry_lt m' x) eqn:Hlt; simpl; intros [= <- <-].
    + split.
      * rewrite Hperm. apply Permutation_swap.
      * intros y [->|Hy]%elem_of_cons; [by apply entry_lt_true_le|by apply Hmin].
    + split; [done|].
      intros y [->|Hy]%elem_of_cons; [apply Qle_refl|].
      eapply Qle_trans; [by apply entry_lt_false_le|by apply Hmin].
  - intros [= <- <-]. apply heappop_None in E as ->.
    split; [done|]. intros y ->%list_elem_of_singleton. apply Qle_refl.
Qed.


(** ** The search: paths and their weights *)

Lemma dict_get_elem {V} (k : string) (v : V) d : dict_get k d = Some v → (k, v) ∈ d.
Proof.
  induction d as [|[k0 v0] d IH]; simpl; [done|].
  case_decide; subst.
  - intros [= ->]. by apply elem_of_cons; left.
  - intros Hget. apply elem_of_cons; right. by apply IH.
Qed.

Lemma elem_dict_get {V} (k : string) (v : V) d :
  NoDup d.*1 → (k, v) ∈ d → dict_get k d = Some v.
Proof.
  induction d as [|[k0 v0] d IH]; simpl.
  - by intros _ ?%elem_of_nil.
  - rewrite NoDup_cons. intros [Hk0 Hd] [[= -> ->]|Hin]%elem_of_cons.
    + by rewrite decide_True.
    + rewrite decide_False; [by apply IH|].
      intros ->. apply Hk0. apply list_elem_of_fmap. by exists (k, v).
Qed.

Section PathFacts.
Variable G : DiGraph.
Variable weight : string → string → EdgeData → Q.
Hypothesis Hnonneg : nonneg_weights G weight.

Lemma walk_weight_cons u v rest :
  walk_weight G weight (u :: v :: rest) =
    match edge_data G u v, walk_weight G weight (v :: rest) with
    | Some e, Some w => Some (weight u v e + w)%Q
    | _, _ => None
    end.
Proof. reflexivity. Qed.

Lemma walk_weight_cons_inv u v rest w :
  walk_weight G weight (u :: v :: rest) = Some w →
  ∃ e w0, edge_data G u v = Some e ∧ walk_weight G weight (v :: rest) = Some w0 ∧
          w = (weight u v e + w0)%Q.
Proof.
  rewrite walk_weight_cons.
  destruct (edge_data G u v) as [e|]; [|done].
  destruct (walk_weight G weight (v :: rest)) as [w0|]; [|done].
  intros [= <-]. by exists e, w0.
Qed.

Lemma walk_weight_nonneg p w : walk_weight G weight p = Some w → (0 <= w)%Q.
Proof.
  revert w. induction p as [|u p IH]; intros w.
  - intros [= <-]. apply Qle_refl.
  - destruct p as [|v rest]; [intros [= <-]; apply Qle_refl|].
    intros (e & w0 & He & Hw0 & ->)%walk_weight_cons_inv.
    specialize (IH w0 Hw0). pose proof (Hnonneg u v e He). lra.
Qed.

(** Extending a path by one edge at its end. *)
Lemma walk_weight_snoc p y x e w :
  last p = Some y → walk_weight G weight p = Some w →
  edge_data G y x = Some e →
  ∃ w', walk_weight G weight (p ++ [x]) = Some w' ∧ (w' == w + weight y x e)%Q.
Proof.
  revert w. induction p as [|u p IH]; intros w; [done|].
  destruct p as [|v rest].
  - simpl. intros [= ->] [= <-] ->. eexists; split; [done|]. ring.
  - intros Hlast (e0 & w0 & He0 & Hw0 & ->)%walk_weight_cons_inv He.
    change (last (u :: v :: rest)) with (last (v :: rest)) in Hlast.
    destruct (IH w0 Hlast Hw0 He) as (w1 & Hw1 & Heq).
    change ((u :: v :: rest) ++ [x]) with (u :: v :: (rest ++ [x])).
    change ((v :: rest) ++ [x]) with (v :: (rest ++ [x])) in Hw1.
    rewrite walk_weight_cons, He0, Hw1. eexists; split; [done|].
    rewrite Heq. ring.
Qed.

Lemma is_path_snoc a y x p w e :
  is_path G weight a y p w → edge_data G y x = Some e →
  ∃ w', is_path G weight a x (p ++ [x]) w' ∧ (w' == w + weight y x e)%Q.
Proof.
  intros (Hh & Hl & Hw) He.
  destruct (walk_weight_snoc p y x e w Hl Hw He) as (w' & Hw' & Heq).
  exists w'. split; [|done]. split; [|split; [|done]].
  - by destruct p.
  - by rewrite last_snoc.
Qed.

(** Splitting a path at its last edge. *)
Lemma is_path_unsnoc a x p w :
  is_path G weight a x p w →
  (p = [a] ∧ x = a ∧ w = 0%Q) ∨
  ∃ p' y e w', p = p' ++ [x] ∧ is_path G weight a y p' w' ∧
               edge_data G y x = Some e ∧ (w == w' + weight y x e)%Q.
Proof.
  intros (Hh & Hl & Hw). revert a w Hh Hw.
  induction p as [|u p IH]; intros a w Hh Hw; [done|].
  simpl in Hh. injection Hh as ->.
  destruct p as [|v rest].
  - left. simpl in *. by simplify_eq.
  - right. change (last (a :: v :: rest)) with (last (v :: rest)) in Hl.
    apply walk_weight_cons_inv in Hw as (e0 & w0 & He0 & Hw0 & ->).
    destruct (IH Hl v w0 eq_refl Hw0) as [(Hp & -> & ->)|
      (p' & y & e & w' & Hp & (Hh' & Hl' & Hw') & He & Heq)].
    + injection Hp as ->. exists [a], a, e0, 0%Q.
      split; [done|]. split; [done|]. split; [done|]. ring.
    + assert (∃ w1, walk_weight G weight (a :: p') = Some w1 ∧
                    (w1 == weight a v e0 + w')%Q) as (w1 & Hw1 & Heq1).
      { destruct p' as [|v' rest']; [done|]. simpl in Hh'. injection Hh' as ->.
        rewrite walk_weight_cons, He0, Hw'. eexists; split; [done|]. ring. }
      exists (a :: p'), y, e, w1. split; [by rewrite Hp|].
      split; [|split; [done|rewrite Heq, Heq1; ring]].
      split; [done|]. split; [|done]. by destruct p'.
Qed.
End PathFacts.

(** ** The search: the invariant is kept and gives a shortest path *)

Section DijkstraCorrect.
Variable G : DiGraph.
Variable weight : string → string → EdgeData → Q.
Variable target src : string.
Hypothesis Hnonneg : nonneg_weights G weight.
Hypothesis Hnodup : adj_nodup G.

Lemma succ_edge_data v succs u e :
  g_adj G !! v = Some succs → (u, e) ∈ succs → edge_data G v u = Some e.
Proof.
  intros Hv Hin. unfold edge_data. rewrite Hv; simpl.
  apply elem_dict_get; [by apply (Hnodup v)|done].
Qed.

Lemma edge_data_succ v u e :
  edge_data G v u = Some e → ∃ succs, g_adj G !! v = Some succs ∧ (u, e) ∈ succs.
Proof.
  unfold edge_data. destruct (g_adj G !! v) as [succs|]; simpl; [|done].
  intros Hget. exists succs. split; [done|by apply dict_get_elem].
Qed.

(** Every path from the source either ends at a settled node or is at
    least as heavy as some entry waiting in the fringe. *)
Lemma lower_bound st p : ∀ x w,
  loop_inv G weight src st → is_path G weight src x p w →
  (∃ d c z, (d, c, z) ∈ fringe st ∧ (d <= w)%Q) ∨ is_Some (dist st !! x).
Proof.
  induction p as [|x0 p' IH] using rev_ind; intros x w [Hinv Hrel] Hp.
  - by destruct Hp as (? & _).
  - destruct (is_path_unsnoc _ _ _ _ _ _ Hp)
      as [(_ & -> & ->)|(q & y & e & w' & Heq & Hq & He & Hw)].
    + destruct (dist st !! src) as [d0|] eqn:Hd; [right; by eauto|]. left.
      destruct (dinv_src _ _ _ _ Hinv Hd) as (s0 & Hs0 & Hle).
      destruct (dinv_seen_fringe _ _ _ _ Hinv _ _ Hs0 Hd) as [c Hc].
      by exists s0, c, src.
    + apply app_inj_tail in Heq as [-> ->].
      pose proof (Hnonneg _ _ _ He) as Hpos.
      destruct (IH y w' (conj Hinv Hrel) Hq) as [(d & c & z & Hin & Hle)|[dy Hdy]].
      * left. exists d, c, z. split; [done|]. rewrite Hw. lra.
      * destruct (edge_data_succ _ _ _ He) as (succs & Hsuccs & Hin).
        destruct (Hrel y succs Hsuccs dy x e Hdy Hin) as (sx & Hsx & Hle).
        pose proof (dinv_dist_opt _ _ _ _ Hinv _ _ Hdy _ _ Hq) as Hopt.
        destruct (dist st !! x) as [dx|] eqn:Hdx; [right; by eauto|]. left.
        destruct (dinv_seen_fringe _ _ _ _ Hinv _ _ Hsx Hdx) as [c Hc].
        exists sx, c, x. split; [done|]. rewrite Hw. lra.
Qed.

(** Settling the node of the least fringe entry. *)
Lemma settle_inv st d c v h :
  loop_inv G weight src st →
  heappop (fringe st) = Some ((d, c, v), h) →
  dist st !! v = None →
  dinv G weight src
       (mkDState (<[v := d]> (dist st)) (seen st) (paths st) h (counter st)).
Proof.
  intros Hloop Hpop Hv. pose proof Hloop as [Hinv Hrel].
  destruct (heappop_spec _ _ _ Hpop) as [Hperm Hmin].
  assert (∀ x, x ∈ h → x ∈ fringe st) as Hsub.
  { intros x Hx. rewrite Hperm. by apply elem_of_cons; right. }
  assert ((d, c, v) ∈ fringe st) as Hm
    by (rewrite Hperm; by apply elem_of_cons; left).
  constructor; simpl.
  - intros d' c' z Hin. by apply (dinv_fringe_seen _ _ _ _ Hinv d' c' z), Hsub.
  - intros z sz Hsz [Hdz Hne]%lookup_insert_None.
    destruct (dinv_seen_fringe _ _ _ _ Hinv _ _ Hsz Hdz) as [c' Hc'].
    exists c'. rewrite Hperm in Hc'.
    apply elem_of_cons in Hc' as [[= _ _ ->]|Hc']; done.
  - apply (dinv_paths _ _ _ _ Hinv).
  - intros z dz. destruct (decide (v = z)) as [<-|Hne].
    + rewrite lookup_insert_eq. intros [= <-].
      destruct (dinv_fringe_seen _ _ _ _ Hinv _ _ _ Hm) as (sv & Hsv & Hle).
      destruct (dinv_seen_fringe _ _ _ _ Hinv _ _ Hsv Hv) as [c' Hc'].
      exists sv. split; [done|]. apply Qle_antisym; [done|].
      apply (Hmin _ Hc').
    + rewrite lookup_insert_ne by done. apply (dinv_dist_seen _ _ _ _ Hinv).
  - intros z dz. destruct (decide (v = z)) as [<-|Hne].
    + rewrite lookup_insert_eq. intros [= <-] p w Hp.
      destruct (lower_bound st p v w Hloop Hp) as [(d' & c' & z & Hin & Hle)|[? Hd]].
      * eapply Qle_trans; [apply (Hmin _ Hin)|done].
      * by rewrite Hv in Hd.
    + rewrite lookup_insert_ne by done. apply (dinv_dist_opt _ _ _ _ Hinv).
  - intros [Hd _]%lookup_insert_None. by apply (dinv_src _ _ _ _ Hinv).
Qed.

(** Discarding a fringe entry whose node is already settled. *)
Lemma discard_inv st d c v h :
  loop_inv G weight src st →
  heappop (fringe st) = Some ((d, c, v), h) →
  is_Some (dist st !! v) →
  loop_inv G weight src
           (mkDState (dist st) (seen st) (paths st) h (counter st)).
Proof.
  intros [Hinv Hrel] Hpop [dv Hv].
  destruct (heappop_spec _ _ _ Hpop) as [Hperm Hmin].
  split; [|exact Hrel]. constructor; simpl.
  - intros d' c' z Hin. apply (dinv_fringe_seen _ _ _ _ Hinv d' c' z).
    rewrite Hperm. by apply elem_of_cons; right.
  - intros z sz Hsz Hdz.
    destruct (dinv_seen_fringe _ _ _ _ Hinv _ _ Hsz Hdz) as [c' Hc'].
    exists c'. rewrite Hperm in Hc'.
    apply elem_of_cons in Hc' as [[= _ _ ->]|Hc']; [congruence|done].
  - apply (dinv_paths _ _ _ _ Hinv).
  - apply (dinv_dist_seen _ _ _ _ Hinv).
  - apply (dinv_dist_opt _ _ _ _ Hinv).
  - apply (dinv_src _ _ _ _ Hinv).
Qed.
Lemma seen_decreases_refl st : seen_decreases st st.
Proof. intros z sz Hz. exists sz. split; [done|apply Qle_refl]. Qed.

Lemma seen_decreases_trans st1 st2 st3 :
  seen_decreases st1 st2 → seen_decreases st2 st3 → seen_decreases st1 st3.
Proof.
  intros H12 H23 z sz Hz. destruct (H12 z sz Hz) as (sz2 & Hz2 & Hle2).
  destruct (H23 z sz2 Hz2) as (sz3 & Hz3 & Hle3).
  exists sz3. split; [done|]. by eapply Qle_trans.
Qed.

Lemma relaxed_mono st st' y items :
  dist st' = dist st → seen_decreases st st' →
  relaxed weight st y items → relaxed weight st' y items.
Proof.
  intros Hd Hs Hrel dy x e Hdy Hin. rewrite Hd in Hdy.
  destruct (Hrel dy x e Hdy Hin) as (sx & Hsx & Hle).
  destruct (Hs x sx Hsx) as (sx' & Hsx' & Hle').
  exists sx'. split; [done|]. by eapply Qle_trans.
Qed.

(** The branch of [relax] that records a better tentative distance. *)
Lemma improve_inv st v dv succs u e pv :
  dinv G weight src st →
  dist st !! v = Some dv →
  g_adj G !! v = Some succs → (u, e) ∈ succs →
  dist st !! u = None →
  paths st !! v = Some pv →
  (∀ su, seen st !! u = Some su → (dv + weight v u e < su)%Q) →
  let st' := mkDState (dist st) (<[u := (dv + weight v u e)%Q]> (seen st))
                      (<[u := pv ++ [u]]> (paths st))
                      (heappush (fringe st) ((dv + weight v u e)%Q, counter st, u))
                      (S (counter st)) in
  dinv G weight src st' ∧ seen_decreases st st' ∧ relaxed weight st' v [(u, e)].
Proof.
  intros Hinv Hv Hsuccs Hin Hu Hpv Hbetter st'.
  set (vu := (dv + weight v u e)%Q) in *.
  split; [|split].
  - constructor; simpl.
    + intros d c z [[= -> -> ->]|Hold]%elem_of_cons.
      * exists vu. rewrite lookup_insert_eq. split; [done|apply Qle_refl].
      * destruct (dinv_fringe_seen _ _ _ _ Hinv _ _ _ Hold) as (sz & Hsz & Hle).
        destruct (decide (u = z)) as [<-|Hne].
        -- exists vu. rewrite lookup_insert_eq. split; [done|].
           pose proof (Hbetter sz Hsz). lra.
        -- exists sz. by rewrite lookup_insert_ne.
    + intros z sz. destruct (decide (u = z)) as [<-|Hne].
      * rewrite lookup_insert_eq. intros [= <-] _. exists (counter st).
        by apply elem_of_cons; left.
      * rewrite lookup_insert_ne by done. intros Hsz Hdz.
        destruct (dinv_seen_fringe _ _ _ _ Hinv _ _ Hsz Hdz) as [c Hc].
        exists c. by apply elem_of_cons; right.
    + intros z sz. destruct (decide (u = z)) as [<-|Hne].
      * rewrite !lookup_insert_eq. intros [= <-].
        destruct (dinv_dist_seen _ _ _ _ Hinv _ _ Hv) as (sv & Hsv & Hsvd).
        destruct (dinv_paths _ _ _ _ Hinv _ _ Hsv) as (p & w & Hp & Hpath & Hw).
        rewrite Hpv in Hp. injection Hp as <-.
        destruct (is_path_snoc _ _ _ _ _ _ _ _ Hpath
                    (succ_edge_data _ _ _ _ Hsuccs Hin)) as (w' & Hpath' & Hw').
        exists (pv ++ [u]), w'. split; [done|]. split; [done|].
        unfold vu. rewrite Hw', Hw, Hsvd. reflexivity.
      * rewrite !lookup_insert_ne by done. apply (dinv_paths _ _ _ _ Hinv).
    + intros z dz Hdz. destruct (decide (u = z)) as [<-|Hne]; [congruence|].
      rewrite lookup_insert_ne by done. by apply (dinv_dist_seen _ _ _ _ Hinv).
    + apply (dinv_dist_opt _ _ _ _ Hinv).
    + intros Hd. destruct (dinv_src _ _ _ _ Hinv Hd) as (s0 & Hs0 & Hle).
      destruct (decide (u = src)) as [->|Hne].
      * exists vu. rewrite lookup_insert_eq. split; [done|].
        pose proof (Hbetter s0 Hs0). lra.
      * exists s0. by rewrite lookup_insert_ne.
  - intros z sz Hsz; simpl. destruct (decide (u = z)) as [<-|Hne].
    + exists vu. rewrite lookup_insert_eq. split; [done|].
      pose proof (Hbetter sz Hsz). lra.
    + exists sz. rewrite lookup_insert_ne by done. split; [done|apply Qle_refl].
  - intros dy x e' Hdy [[= -> ->]|Hnil]%elem_of_cons; [|by apply elem_of_nil in Hnil].
    simpl in *. rewrite Hv in Hdy. injection Hdy as <-.
    exists vu. rewrite lookup_insert_eq. split; [done|apply Qle_refl].
Qed.

Lemma Qltb_true a b : Qltb a b = true → (a < b)%Q.
Proof. unfold Qltb. by destruct (Qlt_le_dec a b). Qed.

Lemma Qltb_false a b : Qltb a b = false → (b <= a)%Q.
Proof. unfold Qltb. by destruct (Qlt_le_dec a b). Qed.

(** One relaxation that does not raise keeps the invariant, leaves [dist]
    alone, does not increase [seen], and relaxes the successor. *)
Lemma relax_inv st st' v dv succs u e :
  dinv G weight src st →
  dist st !! v = Some dv →
  g_adj G !! v = Some succs → (u, e) ∈ succs →
  relax weight v u e st = Ok st' →
  dinv G weight src st' ∧ dist st' = dist st ∧ seen_decreases st st' ∧
  relaxed weight st' v [(u, e)].
Proof.
  intros Hinv Hv Hsuccs Hin. unfold relax. rewrite Hv.
  assert (∀ su, seen st !! u = Some su → (su <= dv + weight v u e)%Q →
                relaxed weight st v [(u, e)]) as Hkeep.
  { intros su Hsu Hle dy x e' Hdy [[= -> ->]|Hnil]%elem_of_cons;
      [|by apply elem_of_nil in Hnil].
    rewrite Hv in Hdy. injection Hdy as <-. by exists su. }
  destruct (dist st !! u) as [ud|] eqn:Hu.
  - destruct (Qltb _ ud) eqn:Hlt; [done|]. intros [= <-].
    apply Qltb_false in Hlt.
    destruct (dinv_dist_seen _ _ _ _ Hinv _ _ Hu) as (su & Hsu & Hsud).
    split; [done|]. split; [done|]. split; [apply seen_decreases_refl|].
    apply (Hkeep su Hsu). by rewrite Hsud.
  - destruct (paths st !! v) as [pv|] eqn:Hpv.
    + destruct (seen st !! u) as [su|] eqn:Hsu.
      * destruct (Qltb _ su) eqn:Hlt.
        -- intros [= <-]. apply Qltb_true in Hlt.
           destruct (improve_inv st v dv succs u e pv) as (H1 & H2 & H3);
             try done.
           intros su' Hsu'. by simplify_eq.
        -- intros [= <-]. apply Qltb_false in Hlt.
           split; [done|]. split; [done|]. split; [apply seen_decreases_refl|].
           by apply (Hkeep su).
      * intros [= <-].
        destruct (improve_inv st v dv succs u e pv) as (H1 & H2 & H3); try done.
        intros su' Hsu'. congruence.
    + destruct (seen st !! u) as [su|] eqn:Hsu; [|done].
      destruct (Qltb _ su) eqn:Hlt; [done|]. intros [= <-].
      apply Qltb_false in Hlt.
      split; [done|]. split; [done|]. split; [apply seen_decreases_refl|].
      by apply (Hkeep su).
Qed.

Lemma relax_all_inv v dv succs todo : ∀ st st',
  dinv G weight src st →
  dist st !! v = Some dv →
  g_adj G !! v = Some succs → (∀ x, x ∈ todo → x ∈ succs) →
  relax_all weight v todo st = Ok st' →
  dinv G weight src st' ∧ dist st' = dist st ∧ seen_decreases st st' ∧
  relaxed weight st' v todo.
Proof.
  induction todo as [|[u e] todo IH]; intros st st' Hinv Hv Hsuccs Hsub; simpl.
  - intros [= <-]. split; [done|]. split; [done|].
    split; [apply seen_decreases_refl|]. intros dy x e _ Hin.
    by apply elem_of_nil in Hin.
  - destruct (relax weight v u e st) as [st1|] eqn:Hrelax; [|done]. intros Hrest.
    destruct (relax_inv st st1 v dv succs u e Hinv Hv Hsuccs) as (I1 & D1 & S1 & R1);
      [apply Hsub; by apply elem_of_cons; left|done|].
    destruct (IH st1 st' I1) as (I2 & D2 & S2 & R2); try done.
    { by rewrite D1. }
    { intros x Hx. apply Hsub. by apply elem_of_cons; right. }
    split; [done|]. split; [by rewrite D2|].
    split; [by eapply seen_decreases_trans|].
    pose proof (relaxed_mono _ _ _ _ D2 S2 R1) as R1'.
    intros dy x e' Hdy [[= -> ->]|Hin]%elem_of_cons.
    + apply (R1' dy u e Hdy). by apply elem_of_cons; left.
    + by apply (R2 dy x e' Hdy).
Qed.

(** The loop keeps [loop_inv]; whatever state it returns satisfies the
    invariant of the search. *)
Lemma dijkstra_loop_inv fuel : ∀ st st',
  loop_inv G weight src st →
  dijkstra_loop G weight target fuel st = Ok st' →
  dinv G weight src st'.
Proof.
  induction fuel as [|fuel IH]; intros st st' Hloop; simpl; [done|].
  destruct (heappop (fringe st)) as [[[[d c] v] h]|] eqn:Hpop.
  - destruct (dist st !! v) as [dv|] eqn:Hv.
    + apply IH. by apply (discard_inv st d c v h).
    + pose proof (settle_inv st d c v h Hloop Hpop Hv) as Hst1.
      case_decide; [by intros [= <-]|].
      destruct (g_adj G !! v) as [succs|] eqn:Hsuccs; [|done].
      destruct (relax_all _ _ _ _) as [st2|] eqn:Hrelax; [|done].
      apply IH.
      destruct (relax_all_inv v d succs succs _ st2 Hst1) as (I2 & D2 & S2 & R2);
        try done.
      { simpl. apply lookup_insert_eq. }
      split; [done|]. intros y succs' Hy.
      destruct (decide (y = v)) as [->|Hne].
      * by simplify_eq.
      * destruct Hloop as [_ Hrel]. specialize (Hrel y succs' Hy).
        intros dy x e Hdy Hin. rewrite D2 in Hdy; simpl in Hdy.
        rewrite lookup_insert_ne in Hdy by done.
        destruct (Hrel dy x e Hdy Hin) as (sx & Hsx & Hle).
        destruct (S2 x sx Hsx) as (sx' & Hsx' & Hle').
        exists sx'. split; [done|]. by eapply Qle_trans.
  - by intros [= <-]; destruct Hloop.
Qed.

Lemma dijkstra_initial_inv :
  loop_inv G weight src
    (mkDState ∅ {[src := 0%Q]} {[src := [src]]} (heappush [] (0%Q, 0, src)) 1).
Proof.
  split.
  - constructor; simpl.
    + intros d c z [= -> -> ->]%list_elem_of_singleton.
      exists 0%Q. rewrite lookup_singleton_eq. split; [done|apply Qle_refl].
    + intros z sz [<- <-]%lookup_singleton_Some _. exists 0.
      by apply list_elem_of_singleton.
    + intros z sz [<- <-]%lookup_singleton_Some. exists [src], 0%Q.
      rewrite lookup_singleton_eq. split; [done|]. split; [by repeat split|].
      reflexivity.
    + intros z dz. by rewrite lookup_empty.
    + intros z dz. by rewrite lookup_empty.
    + intros _. exists 0%Q. rewrite lookup_singleton_eq.
      split; [done|apply Qle_refl].
  - intros y succs _ dy x e Hdy. simpl in Hdy. by rewrite lookup_empty in Hdy.
Qed.

(** [dijkstra_path] returns a path from the source to the target that no
    other path between them undercuts. *)
Lemma dijkstra_path_shortest p :
  dijkstra_path G weight target src = Ok p →
  ∃ w, is_path G weight src target p w ∧
       ∀ p' w', is_path G weight src target p' w' → (w <= w')%Q.
Proof.
  unfold dijkstra_path. destruct (g_node G !! src); [|done].
  case_decide as Heq.
  - intros [= <-]. subst target. exists 0%Q. split; [by repeat split|].
    intros p' w' (_ & _ & Hw). by apply (walk_weight_nonneg G weight Hnonneg p').
  - unfold _dijkstra_multisource.
    destruct (dijkstra_loop _ _ _ _ _) as [st|] eqn:Hloop; [|done].
    apply dijkstra_loop_inv in Hloop; [|apply dijkstra_initial_inv].
    destruct (dist st !! target) as [dt|] eqn:Hdt; [|done].
    destruct (paths st !! target) as [pt|] eqn:Hpt; [|done]. intros [= <-].
    destruct (dinv_dist_seen _ _ _ _ Hloop _ _ Hdt) as (sx & Hsx & Hsxd).
    destruct (dinv_paths _ _ _ _ Hloop _ _ Hsx) as (p0 & w & Hp0 & Hpath & Hw).
    rewrite Hpt in Hp0. injection Hp0 as <-.
    exists w. split; [done|]. intros p' w' Hp'.
    rewrite Hw, Hsxd. by apply (dinv_dist_opt _ _ _ _ Hloop _ _ Hdt p').
Qed.
End DijkstraCorrect.

(** ** The query returns a shortest path *)

Lemma graph_nonneg_spec g :
  graph_nonneg g = true →
  ∀ u v e, edge_data g u v = Some e → edge_data_nonneg e = true.
Proof.
  unfold graph_nonneg, edge_data.
  apply (map_fold_weak_ind (λ b (m : gmap string (list (string * EdgeData))),
    b = true → ∀ u v e, m !! u ≫= dict_get v = Some e → edge_data_nonneg e = true)).
  - intros _ u v e. by rewrite lookup_empty.
  - intros i succs m b Hi IH [Hall Hb]%andb_true_iff u v e.
    destruct (decide (i = u)) as [->|Hne].
    + rewrite lookup_insert_eq; simpl. intros Hin%dict_get_elem.
      rewrite forallb_forall in Hall. apply (Hall (v, e)).
      by apply list_elem_of_In.
    + rewrite lookup_insert_ne by done. by apply IH.
Qed.

Lemma nonneg_weights_sufficient g w :
  weights_nonneg w = true → graph_nonneg g = true →
  nonneg_weights g (weight_function w).
Proof.
  intros Hw Hg u v e He. apply (graph_nonneg_spec g Hg) in He.
  unfold weights_nonneg in Hw. unfold edge_data_nonneg in He.
  repeat (apply andb_true_iff in Hw as [Hw ?]).
  repeat (apply andb_true_iff in He as [He ?]).
  repeat match goal with H : Qle_bool _ _ = true |- _ =>
    apply Qle_bool_iff in H end.
  unfold weight_function.
  assert (0 <= ed_duration e / 100)%Q by (apply Qle_shift_div_l; lra).
  assert (0 <= ed_emissions e / 1000)%Q by (apply Qle_shift_div_l; lra).
  assert (0 <= ed_cost e / 5000)%Q by (apply Qle_shift_div_l; lra).
  pose proof (Qmult_le_0_compat (w_duration w) (ed_duration e / 100)).
  pose proof (Qmult_le_0_compat (w_emissions w) (ed_emissions e / 1000)).
  pose proof (Qmult_le_0_compat (w_cost w) (ed_cost e / 5000)).
  lra.
Qed.

(** C1, as the code has it: when every edge of the effective graph has a
    non-negative scalar weight under the current objective weights, a route
    returned by [find_shortest_path] is a path of the effective graph from
    the source to the target, and its total weight
    [Σ w_duration·duration/100 + w_emissions·emissions/1000 + w_cost·cost/5000]
    is at most that of every path between them. *)
Theorem find_shortest_path_minimal s a b r s' :
  adj_nodup (graph s) →
  nonneg_weights (graph s) (weight_function (weights s)) →
  find_shortest_path a b s = (Ok (Some r), s') →
  ∃ w, is_path (graph s) (weight_function (weights s)) a b (path r) w ∧
       ∀ p' w', is_path (graph s) (weight_function (weights s)) a b p' w' →
                (w <= w')%Q.
Proof.
  intros Hnodup Hnonneg. unfold find_shortest_path; unfold_M; simpl.
  destruct (initialized s); simpl; [|done].
  destruct (nodes s !! a) as [src|]; [|done].
  destruct (nodes s !! b) as [tgt|]; [|done].
  destruct (blocked src || blocked tgt); [done|].
  destruct (dijkstra_path _ _ _ _) as [p|x] eqn:Hp; [|by destruct x].
  destruct (path_metrics _ _ _ _ _ _) as [[[[? ?] ?] ?]|]; simpl; [|done].
  intros [= <- _]. simpl.
  by apply (dijkstra_path_shortest _ _ _ _ Hnonneg Hnodup).
Qed.

Lemma find_shortest_path_minimal_witness :
  ∃ w, is_path (graph demo) (weight_function (weights demo)) "A" "C"
               (path demo_route_AC) w ∧
       ∀ p' w', is_path (graph demo) (weight_function (weights demo)) "A" "C" p' w' →
                (w <= w')%Q.
Proof.
  apply (find_shortest_path_minimal demo "A" "C" demo_route_AC
           (find_shortest_path "A" "C" demo).2).
  - apply (reachable_inv demo demo_reachable).
  - apply nonneg_weights_sufficient; vm_compute; reflexivity.
  - vm_compute. reflexivity.
Defined.

Lemma detour_negative_reachable : reachable detour_negative.
Proof.
  apply reach_op, reach_initialize. repeat constructor; by vm_compute; eexists.
Qed.

(** C1, as stated, fails once an edge weight is negative.  After
    [update_weights(-1, 2, 0)] the leg [C → B] weighs -0.998; the search
    settles the target [B] at distance 0.01 through the direct leg and
    stops, although the path through [C] weighs -0.968. *)
Lemma find_shortest_path_not_minimal_negative_weight :
  ∃ r w w',
    (find_shortest_path "A" "B" detour_negative).1 = Ok (Some r) ∧
    path r = ["A"; "B"] ∧
    is_path (graph detour_negative) (weight_function (weights detour_negative))
            "A" "B" (path r) w ∧
    is_path (graph detour_negative) (weight_function (weights detour_negative))
            "A" "B" ["A"; "C"; "B"] w' ∧
    (w' < w)%Q.
Proof.
  eexists _, _, _. split; [vm_compute; reflexivity|]. split; [reflexivity|].
  split; [repeat split; vm_compute; reflexivity|].
  split; [repeat split; vm_compute; reflexivity|].
  vm_compute. reflexivity.
Qed.

(** ** The search terminates within its fuel *)

Lemma unsettled_edges_insert adj settled v succs :
  adj !! v = None →
  unsettled_edges (<[v := succs]> adj) settled =
    match settled !! v with
    | Some _ => unsettled_edges adj settled
    | None => length succs + unsettled_edges adj settled
    end.
Proof.
  intros Hv. unfold unsettled_edges. rewrite map_fold_insert_L; [done| |done].
  intros j1 j2 z1 z2 y _ _ _.
  destruct (settled !! j1), (settled !! j2); lia.
Qed.

Lemma unsettled_edges_settle adj settled v d :
  settled !! v = None →
  unsettled_edges adj (<[v := d]> settled) + length (default [] (adj !! v))
  = unsettled_edges adj settled.
Proof.
  intros Hv. induction adj as [|k succs adj Hk IH] using map_ind.
  - by rewrite lookup_empty.
  - rewrite !unsettled_edges_insert by done.
    destruct (decide (k = v)) as [->|Hne].
    + rewrite !lookup_insert_eq, Hv. rewrite Hk in IH; simpl in *. lia.
    + rewrite !lookup_insert_ne by done.
      destruct (settled !! k); lia.
Qed.

Lemma unsettled_edges_empty G :
  unsettled_edges (g_adj G) ∅ = number_of_edges G.
Proof.
  unfold number_of_edges.
  induction (g_adj G) as [|k succs adj Hk IH] using map_ind; [done|].
  rewrite unsettled_edges_insert, lookup_empty by done.
  rewrite map_fold_insert_L; [by rewrite IH|intros; lia|done].
Qed.

Lemma relax_shape weight v u e st st' :
  relax weight v u e st = Ok st' →
  dist st' = dist st ∧ (length (fringe st') ≤ S (length (fringe st)))%nat.
Proof.
  unfold relax. destruct (dist st !! v) as [dv|]; [|done].
  destruct (dist st !! u) as [ud|].
  - destruct (Qltb _ ud); [done|]. intros [= <-]. split; [done|lia].
  - destruct (paths st !! v) as [pv|].
    + destruct (seen st !! u) as [su|]; [destruct (Qltb _ su)|];
        intros [= <-]; simpl; split; (done || lia).
    + destruct (seen st !! u) as [su|]; [|done].
      destruct (Qltb _ su); [done|]. intros [= <-]. split; [done|lia].
Qed.

Lemma relax_all_shape weight v todo : ∀ st st',
  relax_all weight v todo st = Ok st' →
  dist st' = dist st ∧ (length (fringe st') ≤ length (fringe st) + length todo)%nat.
Proof.
  induction todo as [|[u e] todo IH]; intros st st'; simpl.
  - intros [= <-]. split; [done|lia].
  - destruct (relax weight v u e st) as [st1|] eqn:Hr; [|done].
    apply relax_shape in Hr as [Hd Hf]. intros [Hd' Hf']%IH.
    split; [congruence|lia].
Qed.

Lemma dijkstra_loop_fuel G weight target fuel : ∀ st,
  (loop_measure G st < fuel)%nat →
  dijkstra_loop G weight target fuel st ≠ Raise Diverge.
Proof.
  induction fuel as [|fuel IH]; intros st Hm; [lia|]. simpl.
  destruct (heappop (fringe st)) as [[[[d c] v] h]|] eqn:Hpop; [|done].
  apply heappop_spec in Hpop as [Hperm _].
  apply Permutation_length in Hperm. simpl in Hperm.
  unfold loop_measure in *.
  destruct (dist st !! v) as [dv|] eqn:Hv.
  - apply IH. simpl. lia.
  - case_decide; [done|].
    destruct (g_adj G !! v) as [succs|] eqn:Hsuccs; [|done].
    destruct (relax_all _ _ _ _) as [st2|x] eqn:Hrelax.
    + apply relax_all_shape in Hrelax as [Hd Hf]. simpl in *.
      apply IH. rewrite Hd.
      pose proof (unsettled_edges_settle (g_adj G) (dist st) v d Hv) as Hu.
      rewrite Hsuccs in Hu; simpl in Hu. lia.
    + intros [= ->]. revert Hrelax. clear.
      generalize (mkDState (<[v:=d]> (dist st)) (seen st) (paths st) h (counter st)).
      induction succs as [|[u e] succs IHs]; intros st0; simpl; [done|].
      destruct (relax weight v u e st0) as [st1|x] eqn:Hr; [by apply IHs|].
      intros [= ->]. revert Hr. unfold relax.
      repeat (match goal with |- context [match ?t with _ => _ end] =>
                destruct t end; try done).
Qed.

(** The [while] loop of the search always finishes within the fuel that the
    model gives it: [Diverge] is never the outcome. *)
Lemma dijkstra_fuel_enough G weight target src :
  _dijkstra_multisource G weight target src ≠ Raise Diverge.
Proof.
  unfold _dijkstra_multisource, dijkstra_fuel. apply dijkstra_loop_fuel.
  unfold loop_measure; simpl. rewrite unsettled_edges_empty. lia.
Qed.

Lemma find_shortest_path_terminates a b s :
  (find_shortest_path a b s).1 ≠ Raise Diverge.
Proof.
  unfold find_shortest_path; unfold_M; simpl.
  destruct (initialized s); simpl; [|done].
  destruct (nodes s !! a) as [src|]; [|done].
  destruct (nodes s !! b) as [tgt|]; [|done].
  destruct (blocked src || blocked tgt); [done|].
  destruct (dijkstra_path _ _ _ _) as [p|x] eqn:Hp.
  - assert (∀ g p d e c es, path_metrics g p d e c es ≠ Raise Diverge) as Hpm.
    { clear. intros g p. induction p as [|u p IH]; intros d e c es; [done|].
      destruct p as [|v rest]; [done|]. simpl.
      destruct (edge_data g u v); [apply IH|done]. }
    specialize (Hpm (graph s) p 0%Q 0%Q 0%Q []).
    destruct (path_metrics _ _ _ _ _ _) as [[[[? ?] ?] ?]|y]; simpl; [done|].
    congruence.
  - assert (x ≠ Diverge) as Hx.
    { intros ->. revert Hp. unfold dijkstra_path.
      destruct (g_node _ !! a); [|done]. case_decide; [done|].
      pose proof (dijkstra_fuel_enough (graph s) (weight_function (weights s)) b a).
      destruct (_dijkstra_multisource _ _ _ _) as [st|y]; [|congruence].
      by destruct (dist st !! b), (paths st !! b). }
    destruct x; simpl; congruence.
Qed.

(** ** The search never raises on non-negative weights

    On a well-formed graph with non-negative weights the search neither
    meets a missing key nor finds "contradictory paths": it returns a path,
    or raises [NetworkXNoPath] exactly when the target cannot be reached. *)

Section DijkstraTotal.
Variable G : DiGraph.
Variable weight : string → string → EdgeData → Q.
Variable target src : string.
Hypothesis Hnonneg : nonneg_weights G weight.
Hypothesis Hwf : digraph_wf G.
Hypothesis Hsrc : is_Some (g_node G !! src).

Lemma is_path_has_adj x p w :
  is_path G weight src x p w → is_Some (g_adj G !! x).
Proof.
  intros Hp. destruct Hwf as [Hnodup [Hc1 Hc2]].
  destruct (is_path_unsnoc _ _ _ _ _ _ Hp)
    as [(_ & -> & _)|(q & y & e & w' & _ & _ & He & _)]; [by apply Hc1|].
  destruct (edge_data_succ _ _ _ _ He) as (succs & Hy & Hin).
  by apply (Hc2 y succs x e).
Qed.

Lemma relax_ok st v dv succs u e :
  dinv G weight src st →
  dist st !! v = Some dv →
  g_adj G !! v = Some succs → (u, e) ∈ succs →
  ∃ st', relax weight v u e st = Ok st'.
Proof.
  intros Hinv Hv Hsuccs Hin. destruct Hwf as [Hnodup _].
  destruct (dinv_dist_seen _ _ _ _ Hinv _ _ Hv) as (sv & Hsv & Hsvd).
  destruct (dinv_paths _ _ _ _ Hinv _ _ Hsv) as (pv & w & Hpv & Hpath & Hw).
  unfold relax. rewrite Hv, Hpv.
  destruct (dist st !! u) as [ud|] eqn:Hu.
  - destruct (Qltb _ ud) eqn:Hlt; [|by eauto]. apply Qltb_true in Hlt.
    destruct (is_path_snoc _ _ _ _ _ _ _ _ Hpath
                (succ_edge_data _ Hnodup _ _ _ _ Hsuccs Hin)) as (w' & Hpath' & Hw').
    pose proof (dinv_dist_opt _ _ _ _ Hinv _ _ Hu _ _ Hpath') as Hopt.
    rewrite Hw', Hw, Hsvd in Hopt. lra.
  - destruct (seen st !! u) as [su|]; [destruct (Qltb _ su)|]; by eauto.
Qed.

Lemma relax_all_ok v dv succs todo : ∀ st,
  dinv G weight src st →
  dist st !! v = Some dv →
  g_adj G !! v = Some succs → (∀ x, x ∈ todo → x ∈ succs) →
  ∃ st', relax_all weight v todo st = Ok st'.
Proof.
  destruct Hwf as [Hnodup _].
  induction todo as [|[u e] todo IH]; intros st Hinv Hv Hsuccs Hsub; simpl.
  - by eauto.
  - assert ((u, e) ∈ succs) as Hin by (apply Hsub; by apply elem_of_cons; left).
    destruct (relax_ok st v dv succs u e Hinv Hv Hsuccs Hin) as [st1 Hr].
    rewrite Hr.
    destruct (relax_inv G weight src Hnodup st st1 v dv succs u e Hinv Hv Hsuccs Hin Hr)
      as (I1 & D1 & _).
    apply IH; try done; [by rewrite D1|].
    intros x Hx. apply Hsub. by apply elem_of_cons; right.
Qed.

(** Settling a node and relaxing all its successors keeps the loop
    invariant. *)
Lemma settle_relax_inv st d c v h succs st2 :
  loop_inv G weight src st →
  heappop (fringe st) = Some ((d, c, v), h) →
  dist st !! v = None →
  g_adj G !! v = Some succs →
  relax_all weight v succs
    (mkDState (<[v := d]> (dist st)) (seen st) (paths st) h (counter st)) = Ok st2 →
  loop_inv G weight src st2.
Proof.
  intros Hloop Hpop Hv Hsuccs Hrelax. destruct Hwf as [Hnodup _].
  pose proof (settle_inv G weight src Hnonneg st d c v h Hloop Hpop Hv) as Hst1.
  destruct (relax_all_inv G weight src Hnodup v d succs succs _ st2 Hst1)
    as (I2 & D2 & S2 & R2); try done.
  { simpl. apply lookup_insert_eq. }
  split; [done|]. intros y succs' Hy.
  destruct (decide (y = v)) as [->|Hne]; [by simplify_eq|].
  destruct Hloop as [_ Hrel]. specialize (Hrel y succs' Hy).
  intros dy x e Hdy Hin. rewrite D2 in Hdy; simpl in Hdy.
  rewrite lookup_insert_ne in Hdy by done.
  destruct (Hrel dy x e Hdy Hin) as (sx & Hsx & Hle).
  destruct (S2 x sx Hsx) as (sx' & Hsx' & Hle').
  exists sx'. split; [done|]. by eapply Qle_trans.
Qed.

Lemma dijkstra_loop_total fuel : ∀ st,
  loop_inv G weight src st →
  (loop_measure G st < fuel)%nat →
  ∃ st', dijkstra_loop G weight target fuel st = Ok st' ∧
         dinv G weight src st' ∧
         (is_Some (dist st' !! target) ∨
          (loop_inv G weight src st' ∧ fringe st' = [])).
Proof.
  induction fuel as [|fuel IH]; intros st Hloop Hm; [lia|]. simpl.
  destruct (heappop (fringe st)) as [[[[d c] v] h]|] eqn:Hpop.
  - pose proof (heappop_spec _ _ _ Hpop) as [Hperm _].
    pose proof (Permutation_length Hperm) as Hlen. simpl in Hlen.
    unfold loop_measure in *.
    destruct (dist st !! v) as [dv|] eqn:Hv.
    + apply IH; [by apply (discard_inv G weight src st d c v h)|simpl; lia].
    + pose proof (settle_inv G weight src Hnonneg st d c v h Hloop Hpop Hv) as Hst1.
      case_decide as Heq.
      * eexists. split; [done|]. split; [done|]. left; simpl.
        subst v. by rewrite lookup_insert_eq.
      * assert (is_Some (g_adj G !! v)) as [succs Hsuccs].
        { destruct Hloop as [Hinv _].
          assert ((d, c, v) ∈ fringe st) as Hin
            by (rewrite Hperm; by apply elem_of_cons; left).
          destruct (dinv_fringe_seen _ _ _ _ Hinv _ _ _ Hin) as (sv & Hsv & _).
          destruct (dinv_paths _ _ _ _ Hinv _ _ Hsv) as (p & w & _ & Hp & _).
          by apply (is_path_has_adj v p w). }
        rewrite Hsuccs.
        destruct (relax_all_ok v d succs succs _ Hst1) as [st2 Hrelax]; try done.
        { simpl. apply lookup_insert_eq. }
        rewrite Hrelax. apply IH.
        -- by apply (settle_relax_inv st d c v h succs).
        -- apply relax_all_shape in Hrelax as [Hd Hf]. simpl in *. rewrite Hd.
           pose proof (unsettled_edges_settle (g_adj G) (dist st) v d Hv) as Hu.
           rewrite Hsuccs in Hu; simpl in Hu. lia.
  - exists st. split; [done|]. split; [by destruct Hloop|]. right.
    split; [done|]. by apply heappop_None.
Qed.

(** [dijkstra_path] for distinct endpoints: a path, or [NetworkXNoPath] when
    there is none. *)
Lemma dijkstra_path_total :
  (∃ p, dijkstra_path G weight target src = Ok p) ∨
  (dijkstra_path G weight target src = Raise NetworkXNoPath ∧
   ∀ p w, ¬ is_path G weight src target p w).
Proof.
  unfold dijkstra_path. destruct Hsrc as [attr ->].
  case_decide as Heq; [by left; eauto|].
  unfold _dijkstra_multisource, dijkstra_fuel.
  destruct (dijkstra_loop_total (S (S (number_of_edges G))) _
              (dijkstra_initial_inv G weight src))
    as (st & -> & Hinv & Hend).
  { unfold loop_measure; simpl. rewrite unsettled_edges_empty. lia. }
  destruct (dist st !! target) as [dt|] eqn:Hdt.
  - left. destruct (dinv_dist_seen _ _ _ _ Hinv _ _ Hdt) as (sx & Hsx & _).
    destruct (dinv_paths _ _ _ _ Hinv _ _ Hsx) as (p & w & -> & _). by eauto.
  - right. split; [done|]. intros p w Hp.
    destruct Hend as [[? ?]|[Hloop Hempty]]; [done|].
    destruct (lower_bound G weight src Hnonneg st p target w Hloop Hp)
      as [(d & c & z & Hin & _)|[? Hd]].
    + rewrite Hempty in Hin. by apply elem_of_nil in Hin.
    + by rewrite Hdt in Hd.
Qed.
End DijkstraTotal.

(** The metrics loop succeeds on every path of the graph. *)
Lemma path_metrics_ok g weight p : ∀ w d e c es,
  walk_weight g weight p = Some w →
  ∃ d' e' c' es', path_metrics g p d e c es = Ok (d', e', c', es').
Proof.
  induction p as [|u p IH]; intros w d e c es; [by eauto 10|].
  destruct p as [|v rest]; [by eauto 10|].
  intros (ed & w0 & He & Hw0 & _)%walk_weight_cons_inv.
  simpl. rewrite He. by eapply IH.
Qed.

(** On a reachable simulation whose edge weights are non-negative, a query
    between registered, unblocked nodes returns a route, or returns [None]
    when the effective graph has no path between them; it never raises. *)
Lemma find_shortest_path_total s a b na nb :
  reachable s →
  nonneg_weights (graph s) (weight_function (weights s)) →
  nodes s !! a = Some na → nodes s !! b = Some nb →
  blocked na = false → blocked nb = false →
  (∃ r, find_shortest_path a b s = (Ok (Some r), with_current_route (Some r) s)) ∨
  (find_shortest_path a b s = (Ok None, s) ∧
   ∀ p w, ¬ is_path (graph s) (weight_function (weights s)) a b p w).
Proof.
  intros [[Hi Hed Hpp Hgn] [Hnb Hwf]]%reachable_inv Hnonneg Ha Hb Hba Hbb.
  unfold find_shortest_path; unfold_M; simpl.
  rewrite Hi, Ha, Hb, Hba, Hbb; simpl.
  assert (is_Some (g_node (graph s) !! a)) as Hsrc by (apply Hgn; by eauto).
  destruct (dijkstra_path_total (graph s) (weight_function (weights s)) b a
              Hnonneg Hwf Hsrc) as [[p Hp]|[Hp Hnone]].
  - left. rewrite Hp.
    destruct (dijkstra_path_shortest _ _ _ _ Hnonneg (proj1 Hwf) p Hp)
      as (w & (_ & _ & Hw) & _).
    destruct (path_metrics_ok _ _ p w 0%Q 0%Q 0%Q [] Hw) as (d' & e' & c' & es' & ->).
    simpl. by eauto.
  - right. by rewrite Hp.
Qed.

(** * Further properties of the engine *)

(** ** The builder computes a fold over the edge list *)

Lemma lookup_of_drop {A} (l : list A) i x rest :
  drop i l = x :: rest → l !! i = Some x ∧ drop (S i) l = rest.
Proof.
  intros Hd. split.
  - pose proof (lookup_drop l i 0) as H. rewrite Hd in H. simpl in H.
    by rewrite Nat.add_0_r in H.
  - revert i Hd. induction l as [|y l IH]; intros [|i] Hd; simpl in *;
      try done; [by simplify_eq|by apply IH].
Qed.

Lemma with_graph_edges_id s : with_graph (graph s) (with_edges (edges s) s) = s.
Proof. by destruct s. Qed.

Lemma build_edge_pure i e s :
  edge_registered (nodes s) e →
  edges s !! i = Some e →
  build_edge i e s =
    (Ok tt, with_graph (add_built_edge (nodes s) (weather_grid s) (graph s) e)
              (with_edges (<[i := built_edge (nodes s) (weather_grid s) e]> (edges s)) s)).
Proof.
  intros [[src Hsrc] [dst Hdst]] Hi.
  unfold build_edge, built_edge, add_built_edge; unfold_M.
  rewrite Hsrc; simpl. destruct (blocked src) eqn:Bs; simpl.
  { rewrite Hdst, list_insert_id by done. by rewrite with_graph_edges_id. }
  rewrite Hdst; simpl. destruct (blocked dst) eqn:Bd; simpl.
  { rewrite list_insert_id by done. by rewrite with_graph_edges_id. }
  reflexivity.
Qed.

Lemma build_edges_pure todo : ∀ i s,
  Forall (edge_registered (nodes s)) todo →
  drop i (edges s) = todo →
  build_edges i todo s =
    (Ok tt, with_graph (foldl (add_built_edge (nodes s) (weather_grid s)) (graph s) todo)
              (with_edges (take i (edges s)
                           ++ (built_edge (nodes s) (weather_grid s) <$> todo)) s)).
Proof.
  induction todo as [|e todo IH]; intros i s Hreg Hdrop; simpl.
  - rewrite <- Hdrop, take_drop. by rewrite with_graph_edges_id.
  - apply Forall_cons in Hreg as [He Hreg].
    apply lookup_of_drop in Hdrop as [Hi Hdrop].
    erewrite bind_run by (by apply build_edge_pure).
    rewrite IH; simpl; [|done|by rewrite drop_insert_lt by lia].
    f_equal. unfold with_graph, with_edges; simpl. f_equal.
    rewrite (take_S_r _ _ (built_edge (nodes s) (weather_grid s) e)).
    + rewrite take_insert_ge by lia. by rewrite <- app_assoc.
    + apply list_lookup_insert_eq. by eapply lookup_lt_Some.
Qed.

(** [_build_graph] on a simulation whose edges join registered nodes: the
    graph is the fold of [add_built_edge] over the edge list, starting from
    the graph of all registered nodes, and each edge is replaced by its
    [built_edge]. *)
Lemma build_graph_pure s :
  Forall (edge_registered (nodes s)) (edges s) →
  _build_graph s =
    (Ok tt,
     with_graph (foldl (add_built_edge (nodes s) (weather_grid s))
                       (map_fold (λ k n g, add_node k n g) DiGraph_empty (nodes s))
                       (edges s))
       (with_edges (built_edge (nodes s) (weather_grid s) <$> edges s) s)).
Proof.
  intros Hreg. unfold _build_graph.
  do 3 (erewrite bind_run by reflexivity).
  rewrite build_edges_pure by done. simpl. reflexivity.
Qed.

Lemma edge_data_touch_node_inv n g a b d :
  edge_data (touch_node n g) a b = Some d → edge_data g a b = Some d.
Proof.
  unfold touch_node, edge_data.
  destruct (g_node g !! n); [done|]; simpl.
  destruct (decide (n = a)) as [->|Hne].
  - by rewrite lookup_insert_eq.
  - by rewrite lookup_insert_ne.
Qed.

Lemma edge_data_add_edge_inv u v d g a b d' :
  edge_data (add_edge u v d g) a b = Some d' →
  (a = u ∧ b = v ∧ d' = d) ∨ edge_data g a b = Some d'.
Proof.
  unfold add_edge. set (g1 := touch_node v (touch_node u g)).
  assert (edge_data g1 a b = Some d' → edge_data g a b = Some d') as Hg1
    by (intros ?; eauto using edge_data_touch_node_inv).
  unfold edge_data at 1; simpl.
  destruct (decide (u = a)) as [->|Hne].
  - rewrite lookup_insert_eq; simpl. rewrite dict_get_set.
    case_decide; [intros [= <-]; by left; subst|].
    intros Hget. right. apply Hg1. unfold edge_data.
    by destruct (g_adj g1 !! a).
  - rewrite lookup_insert_ne by done. intros Hget. right. by apply Hg1.
Qed.

Lemma touch_node_known n g : is_Some (g_node g !! n) → touch_node n g = g.
Proof. intros [attr Hn]. unfold touch_node. by rewrite Hn. Qed.


Section BuilderFold.
Variable ns : gmap string Node.
Variable wg : WeatherGrid.

Let step := add_built_edge ns wg.

Lemma step_edge_inv g e a b d :
  edge_data (step g e) a b = Some d →
  edge_data g a b = Some d ∨
  ∃ src dst, source e = a ∧ destination e = b ∧
             ns !! a = Some src ∧ ns !! b = Some dst ∧
             blocked src = false ∧ blocked dst = false ∧
             d = effective_edge_data wg e src dst.
Proof.
  unfold step, add_built_edge.
  destruct (ns !! source e) as [src|] eqn:Hsrc; [|by left].
  destruct (ns !! destination e) as [dst|] eqn:Hdst; [|by left].
  destruct (blocked src) eqn:Bs; simpl; [by left|].
  destruct (blocked dst) eqn:Bd; simpl; [by left|].
  intros [(-> & -> & ->)|Hold]%edge_data_add_edge_inv; [|by left].
  right. by exists src, dst.
Qed.

Lemma foldl_step_edge_inv es : ∀ g a b d,
  edge_data (foldl step g es) a b = Some d →
  edge_data g a b = Some d ∨
  ∃ e src dst, e ∈ es ∧ source e = a ∧ destination e = b ∧
               ns !! a = Some src ∧ ns !! b = Some dst ∧
               blocked src = false ∧ blocked dst = false ∧
               d = effective_edge_data wg e src dst.
Proof.
  induction es as [|e es IH]; intros g a b d; simpl; [by left|].
  intros [Hd|(e' & src & dst & Hin & Hrest)]%IH.
  - apply step_edge_inv in Hd as [Hd|(src & dst & Hrest)]; [by left|].
    right. exists e, src, dst. split; [by apply elem_of_cons; left|done].
  - right. exists e', src, dst. split; [by apply elem_of_cons; right|done].
Qed.










Lemma built_edge_same_static e : same_static e (built_edge ns wg e).
Proof.
  unfold built_edge, same_static.
  destruct (ns !! source e) as [src|]; [|done].
  destruct (ns !! destination e) as [dst|]; [|done].
  by destruct (blocked src || blocked dst).
Qed.
End BuilderFold.

Lemma add_nodes_no_edge_data (ns : gmap string Node) a b :
  edge_data (map_fold (λ k n g, add_node k n g) DiGraph_empty ns) a b = None.
Proof.
  pose proof (proj2 (add_nodes_spec ns) a b) as H. unfold has_edge in H.
  destruct (edge_data _ a b); [|done]. exfalso. apply H. by eauto.
Qed.

Lemma add_nodes_only_registered (ns : gmap string Node) k :
  is_Some (g_node (map_fold (λ k n g, add_node k n g) DiGraph_empty ns) !! k) →
  is_Some (ns !! k).
Proof.
  revert k.
  apply (map_fold_weak_ind (λ g (m : gmap string Node),
    ∀ k, is_Some (g_node g !! k) → is_Some (m !! k))).
  - intros k. simpl. by rewrite lookup_empty.
  - intros i x m g Hi IH k. unfold add_node.
    destruct (decide (i = k)) as [->|Hne]; [by rewrite lookup_insert_eq|].
    rewrite lookup_insert_ne by done. intros Hk. apply IH.
    destruct (g_node g !! i); simpl in Hk; by rewrite lookup_insert_ne in Hk.
Qed.

Lemma step_g_node ns wg g e :
  (∀ k, is_Some (ns !! k) → is_Some (g_node g !! k)) →
  g_node (add_built_edge ns wg g e) = g_node g.
Proof.
  intros Hg. unfold add_built_edge.
  destruct (ns !! source e) as [src|] eqn:Hsrc; [|done].
  destruct (ns !! destination e) as [dst|] eqn:Hdst; [|done].
  destruct (blocked src || blocked dst); [done|].
  unfold add_edge; simpl.
  rewrite (touch_node_known (source e) g) by (apply Hg; by eauto).
  by rewrite (touch_node_known (destination e) g) by (apply Hg; by eauto).
Qed.

Lemma foldl_step_g_node ns wg es : ∀ g,
  (∀ k, is_Some (ns !! k) → is_Some (g_node g !! k)) →
  g_node (foldl (add_built_edge ns wg) g es) = g_node g.
Proof.
  induction es as [|e es IH]; intros g Hg; simpl; [done|].
  rewrite IH; [by apply step_g_node|].
  intros k Hk. rewrite step_g_node by done. by apply Hg.
Qed.

(** X1: every edge of a rebuilt graph comes from a listed edge whose two
    endpoints are registered and unblocked, and carries that edge's mode,
    its base duration, emissions and cost scaled by the weather at the
    midpoint, and the delay of its source added to the duration only. *)
Theorem build_graph_edges_sound s u v d :
  Forall (edge_registered (nodes s)) (edges s) →
  edge_data (graph (_build_graph s).2) u v = Some d →
  ∃ e src dst,
    e ∈ edges s ∧ source e = u ∧ destination e = v ∧
    nodes s !! u = Some src ∧ nodes s !! v = Some dst ∧
    blocked src = false ∧ blocked dst = false ∧
    ed_mode d = mode e ∧
    ed_duration d =
      (base_duration e * (1 + edge_weather (weather_grid s) src dst * 2)
       + delay src)%Q ∧
    ed_emissions d =
      (base_emissions e * (1 + edge_weather (weather_grid s) src dst * 2))%Q ∧
    ed_cost d =
      (base_cost e * (1 + edge_weather (weather_grid s) src dst * (3 # 2)))%Q ∧
    ed_weather_impact d = edge_weather (weather_grid s) src dst.
Proof.
  intros Hreg. rewrite build_graph_pure by done. simpl.
  intros [Hd|(e & src & dst & Hin & Hs & Hd & Hu & Hv & Bs & Bd & ->)]
    %foldl_step_edge_inv.
  - by rewrite add_nodes_no_edge_data in Hd.
  - exists e, src, dst. by repeat (split; [done|]).
Qed.

Lemma build_graph_edges_sound_witness :
  ∃ e src dst,
    e ∈ edges demo ∧ source e = "A" ∧ destination e = "B" ∧
    nodes demo !! "A" = Some src ∧ nodes demo !! "B" = Some dst ∧
    blocked src = false ∧ blocked dst = false ∧
    ed_mode (effective_edge_data (weather_grid demo) (Edge_init "A" "B" "ship" 1 1 1)
               (demo_node "A" 0 0) (demo_node "B" 0 1)) = mode e ∧
    ed_duration (effective_edge_data (weather_grid demo)
                   (Edge_init "A" "B" "ship" 1 1 1)
                   (demo_node "A" 0 0) (demo_node "B" 0 1)) =
      (base_duration e * (1 + edge_weather (weather_grid demo) src dst * 2)
       + delay src)%Q ∧
    ed_emissions (effective_edge_data (weather_grid demo)
                    (Edge_init "A" "B" "ship" 1 1 1)
                    (demo_node "A" 0 0) (demo_node "B" 0 1)) =
      (base_emissions e * (1 + edge_weather (weather_grid demo) src dst * 2))%Q ∧
    ed_cost (effective_edge_data (weather_grid demo)
               (Edge_init "A" "B" "ship" 1 1 1)
               (demo_node "A" 0 0) (demo_node "B" 0 1)) =
      (base_cost e * (1 + edge_weather (weather_grid demo) src dst * (3 # 2)))%Q ∧
    ed_weather_impact (effective_edge_data (weather_grid demo)
                         (Edge_init "A" "B" "ship" 1 1 1)
                         (demo_node "A" 0 0) (demo_node "B" 0 1)) =
      edge_weather (weather_grid demo) src dst.
Proof.
  apply (build_graph_edges_sound demo "A" "B").
  - apply (reachable_inv demo demo_reachable).
  - vm_compute. reflexivity.
Defined.





Lemma build_graph_keeps s :
  Forall (edge_registered (nodes s)) (edges s) →
  (_build_graph s).1 = Ok tt ∧
  same_overlay s (_build_graph s).2 ∧
  Forall2 same_static (edges s) (edges (_build_graph s).2) ∧
  (∀ k, is_Some (g_node (graph (_build_graph s).2) !! k) ↔ is_Some (nodes s !! k)).
Proof.
  intros Hreg. split; [by rewrite build_graph_pure|].
  split; [apply build_graph_overlay|].
  rewrite build_graph_pure by done. simpl. split.
  - apply Forall2_fmap_r, Forall_Forall2_diag, Forall_forall.
    intros e _. apply built_edge_same_static.
  - intros k. rewrite foldl_step_g_node
      by apply (proj1 (add_nodes_spec (nodes s))).
    split; [apply add_nodes_only_registered|apply (proj1 (add_nodes_spec (nodes s)))].
Qed.



(** ** The object after each mutating call *)

Lemma bind_ret_snd {A B} (c : M A) (b : B) s :
  ((c ≫= λ _, ret b) s).2 = (c s).2.
Proof. unfold_M. by destruct (c s) as [[a|x] s1]. Qed.

Lemma update_weather_state la lo sev s w :
  set_severity (weather_grid s) la lo sev = Ok w →
  update_weather la lo sev s = _build_graph (with_weather_grid w s).
Proof.
  intros Hw. unfold update_weather. erewrite bind_run by reflexivity.
  rewrite Hw. by erewrite bind_run by reflexivity.
Qed.

Lemma update_weather_raise la lo sev s x :
  set_severity (weather_grid s) la lo sev = Raise x →
  update_weather la lo sev s = (Raise x, s).
Proof.
  intros Hw. unfold update_weather. erewrite bind_run by reflexivity.
  by rewrite Hw.
Qed.

Lemma update_port_delay_state nid h s n :
  nodes s !! nid = Some n →
  update_port_delay nid h s =
    _build_graph
      (with_nodes (<[nid := set_delay (py_max 0 (py_min 24 h)) n]> (nodes s)) s).
Proof.
  intros Hn. unfold update_port_delay. erewrite bind_run by reflexivity.
  rewrite decide_True by (by rewrite Hn).
  by erewrite bind_run by (by apply update_node_run).
Qed.

Lemma update_port_delay_unknown nid h s :
  nodes s !! nid = None → update_port_delay nid h s = (Ok tt, s).
Proof.
  intros Hn. unfold update_port_delay. erewrite bind_run by reflexivity.
  by rewrite decide_False by (rewrite Hn; by intros [? ?]).
Qed.

Lemma add_pain_point_state nid ev nm d b s n :
  nodes s !! nid = Some n →
  (add_pain_point nid ev nm d b s).2 =
    (_build_graph
       (with_nodes (<[nid := set_blocked b (set_delay (delay n + d)%Q n)]> (nodes s))
          (with_pain_points (pain_points s ++ [mkPainPoint nid ev nm d b]) s))).2.
Proof.
  intros Hn. unfold add_pain_point. erewrite bind_run by reflexivity.
  rewrite decide_True by (by rewrite Hn).
  erewrite bind_run by reflexivity.
  erewrite bind_run by (by apply update_node_run).
  erewrite bind_run by (apply update_node_run; simpl; apply lookup_insert_eq).
  rewrite bind_ret_snd. simpl. by rewrite insert_insert_eq.
Qed.

Lemma add_pain_point_unknown nid ev nm d b s :
  nodes s !! nid = None → add_pain_point nid ev nm d b s = (Ok false, s).
Proof.
  intros Hn. unfold add_pain_point. erewrite bind_run by reflexivity.
  by rewrite decide_False by (rewrite Hn; by intros [? ?]).
Qed.

Lemma remove_pain_point_state index s pp n :
  pain_points s !! Z.to_nat index = Some pp →
  (0 ≤ index)%Z →
  nodes s !! node_id pp = Some n →
  (remove_pain_point index s).2 =
    (_build_graph
       (with_nodes
          (<[node_id pp :=
               set_blocked (blocked_by_pain_points (node_id pp)
                              (delete (Z.to_nat index) (pain_points s)))
                 (set_delay (delay n - delay_increase pp)%Q n)]> (nodes s))
          (with_pain_points (delete (Z.to_nat index) (pain_points s)) s))).2.
Proof.
  intros Hpp Hi Hn. unfold remove_pain_point.
  erewrite bind_run by reflexivity.
  apply lookup_lt_Some in Hpp as Hlt.
  rewrite !bool_decide_eq_true_2 by lia. simpl. rewrite Hpp.
  erewrite bind_run by reflexivity.
  erewrite bind_run by (by apply update_node_run).
  erewrite bind_run by (apply update_node_run; simpl; apply lookup_insert_eq).
  erewrite bind_run by reflexivity.
  erewrite bind_run
    by (apply still_blocking_run with (n := set_blocked false
          (set_delay (delay n - delay_increase pp)%Q n)); simpl;
        apply lookup_insert_eq).
  rewrite bind_ret_snd. simpl.
  destruct (blocked_by_pain_points _ _); simpl; by rewrite !insert_insert_eq.
Qed.

Lemma remove_pain_point_invalid index s :
  ¬ (0 ≤ index < Z.of_nat (length (pain_points s)))%Z →
  remove_pain_point index s = (Ok false, s).
Proof.
  intros Hix. unfold remove_pain_point. erewrite bind_run by reflexivity.
  destruct (bool_decide (0 ≤ index)%Z) eqn:E1; simpl; [|done].
  destruct (bool_decide (index < _)%Z) eqn:E2; simpl; [|done].
  apply bool_decide_eq_true in E1, E2. lia.
Qed.

Lemma same_identity_refl n : same_identity n n.
Proof. by repeat split. Qed.

Lemma same_identity_trans n1 n2 n3 :
  same_identity n1 n2 → same_identity n2 n3 → same_identity n1 n3.
Proof.
  unfold same_identity. intros (?&?&?&?&?&?&?) (?&?&?&?&?&?&?).
  repeat split; congruence.
Qed.

Lemma same_static_refl e : same_static e e.
Proof. by repeat split. Qed.

Lemma same_static_trans e1 e2 e3 :
  same_static e1 e2 → same_static e2 e3 → same_static e1 e3.
Proof.
  unfold same_static. intros (?&?&?&?&?&?) (?&?&?&?&?&?).
  repeat split; congruence.
Qed.

(** The shapes a call can leave the object in. *)
Lemma run_op_shape op s :
  inv s →
  (∃ r, run_op op s = with_current_route r s) ∨
  (∃ w, run_op op s = with_weights w s) ∨
  run_op op s = s ∨
  ∃ s1, run_op op s = (_build_graph s1).2 ∧
        edges s1 = edges s ∧
        Forall (edge_registered (nodes s1)) (edges s1) ∧
        weights s1 = weights s ∧ initialized s1 = initialized s ∧
        current_route s1 = current_route s ∧
        ((nodes s1 = nodes s ∧ pain_points s1 = pain_points s ∧
          ∃ la lo sev, (0 <= sev <= 1)%Q ∧
                       set_severity (weather_grid s) la lo sev = Ok (weather_grid s1)) ∨
         (weather_grid s1 = weather_grid s ∧
          ∃ nid n n', nodes s !! nid = Some n ∧
                      nodes s1 = <[nid := n']> (nodes s) ∧ same_identity n n')).
Proof.
  intros [[Hi Hed Hpp Hgn] _]. destruct op; simpl.
  - (* update_weather *)
    destruct (set_severity (weather_grid s) la lo severity) as [w|x] eqn:Hw.
    + right; right; right. rewrite (update_weather_state _ _ _ _ _ Hw).
      eexists. split; [done|]. simpl. repeat (split; [done|]). left.
      repeat (split; [done|]). exists la, lo, severity. split; [|done].
      unfold set_severity in Hw.
      destruct (Qltb severity 0) eqn:E1; [done|].
      destruct (Qltb 1 severity) eqn:E2; [done|].
      apply Qltb_false in E1, E2. by split.
    + right; right; left. by rewrite (update_weather_raise _ _ _ _ _ Hw).
  - (* update_port_delay *)
    destruct (nodes s !! nid) as [n|] eqn:Hn.
    + right; right; right. rewrite (update_port_delay_state _ _ _ _ Hn).
      eexists. split; [done|]. simpl. split; [done|]. split.
      { eapply Forall_impl; [exact Hed|]. intros e.
        by apply edge_registered_insert with n. }
      repeat (split; [done|]). right. split; [done|].
      by exists nid, n, (set_delay (py_max 0 (py_min 24 delay_hours)) n).
    + right; right; left. by rewrite update_port_delay_unknown.
  - (* add_pain_point *)
    destruct (nodes s !! nid) as [n|] eqn:Hn.
    + right; right; right. rewrite (add_pain_point_state _ _ _ _ _ _ _ Hn).
      eexists. split; [done|]. simpl. split; [done|]. split.
      { eapply Forall_impl; [exact Hed|]. intros e.
        by apply edge_registered_insert with n. }
      repeat (split; [done|]). right. split; [done|].
      by exists nid, n, (set_blocked blk (set_delay (delay n + delay_inc)%Q n)).
    + right; right; left. by rewrite add_pain_point_unknown.
  - (* remove_pain_point *)
    destruct (decide (0 ≤ index < Z.of_nat (length (pain_points s)))%Z) as [Hix|Hix].
    + destruct (lookup_lt_is_Some_2 (pain_points s) (Z.to_nat index)) as [pp Hpi];
        [lia|].
      assert (is_Some (nodes s !! node_id pp)) as [n Hn]
        by (eapply (Forall_lookup_1 _ _ _ _ Hpp Hpi)).
      right; right; right.
      rewrite (remove_pain_point_state _ _ _ _ Hpi (proj1 Hix) Hn).
      eexists. split; [done|]. simpl. split; [done|]. split.
      { eapply Forall_impl; [exact Hed|]. intros e.
        by apply edge_registered_insert with n. }
      repeat (split; [done|]). right. split; [done|].
      eexists (node_id pp), n, _. by repeat split.
    + right; right; left. by rewrite remove_pain_point_invalid.
  - (* update_weights *)
    right; left. destruct (update_weights_state duration emissions cost s) as [w ->].
    by exists w.
  - (* find_shortest_path *)
    left. apply find_shortest_path_state.
Qed.

(** ** What no call changes *)

Lemma same_registry_refl s : same_registry s s.
Proof.
  split; [done|]. split.
  - intros k n n' H1 H2. rewrite H1 in H2. injection H2 as <-.
    apply same_identity_refl.
  - apply Forall_Forall2_diag, Forall_forall. intros e _. apply same_static_refl.
Qed.

Lemma same_registry_trans s1 s2 s3 :
  same_registry s1 s2 → same_registry s2 s3 → same_registry s1 s3.
Proof.
  intros (K12 & I12 & E12) (K23 & I23 & E23). split; [|split].
  - intros k. by rewrite K23, K12.
  - intros k n1 n3 H1 H3.
    assert (is_Some (nodes s2 !! k)) as [n2 H2] by (apply K12; by eauto).
    eapply same_identity_trans; [by eapply I12|by eapply I23].
  - eapply Forall2_trans; [|exact E12|exact E23].
    intros e1 e2 e3. apply same_static_trans.
Qed.

Lemma same_registry_fields s s' :
  nodes s' = nodes s → edges s' = edges s → same_registry s s'.
Proof.
  intros Hn He. destruct (same_registry_refl s) as (K & I & E).
  split; [|split]; rewrite ?Hn, ?He; done.
Qed.

Lemma run_op_same_registry op s : inv s → same_registry s (run_op op s).
Proof.
  intros Hinv.
  destruct (run_op_shape op s Hinv) as [[r ->]|[[w ->]|[->|
    (s1 & -> & He1 & Hreg & _ & _ & _ & Hcase)]]];
    try (by apply same_registry_fields).
  destruct (build_graph_keeps s1 Hreg) as (_ & (Hn & _) & Hst & _).
  rewrite He1 in Hst.
  destruct Hcase as [(Hn1 & _)|(_ & nid & n & n' & Hnid & Hn1 & Hid)].
  - split; [by rewrite Hn, Hn1|]. split; [|done].
    intros k m m' H1 H2. rewrite Hn, Hn1, H1 in H2. injection H2 as <-.
    apply same_identity_refl.
  - split; [|split; [|done]].
    + intros k. rewrite Hn, Hn1. destruct (decide (nid = k)) as [<-|Hne].
      * rewrite lookup_insert_eq, Hnid. split; by eauto.
      * by rewrite lookup_insert_ne.
    + intros k m m' H1 H2. rewrite Hn, Hn1 in H2.
      destruct (decide (nid = k)) as [<-|Hne].
      * rewrite lookup_insert_eq in H2. by simplify_eq.
      * rewrite lookup_insert_ne, H1 in H2 by done. injection H2 as <-.
        apply same_identity_refl.
Qed.

Lemma run_ops_reachable ops : ∀ s, reachable s → reachable (run_ops ops s).
Proof.
  induction ops as [|op ops IH]; intros s Hs; simpl; [done|].
  apply IH. by apply reach_op.
Qed.

(** X5: no sequence of calls adds, removes or renames a node, moves it, or
    changes its type or country; and none adds or removes an edge or changes
    an edge's endpoints, mode or base attributes.  Only delays, blocked
    flags and the current values of the edges vary. *)
Theorem run_ops_same_registry s ops :
  reachable s →
  (∀ k, is_Some (nodes (run_ops ops s) !! k) ↔ is_Some (nodes s !! k)) ∧
  (∀ k n n', nodes s !! k = Some n → nodes (run_ops ops s) !! k = Some n' →
             same_identity n n') ∧
  Forall2 same_static (edges s) (edges (run_ops ops s)).
Proof.
  revert s. induction ops as [|op ops IH]; intros s Hs; simpl.
  - apply same_registry_refl.
  - apply (same_registry_trans s (run_op op s)).
    + by apply run_op_same_registry, reachable_inv.
    + apply IH. by apply reach_op.
Qed.

Lemma run_ops_same_registry_witness :
  (∀ k, is_Some (nodes demo_reset !! k) ↔ is_Some (nodes demo !! k)) ∧
  (∀ k n n', nodes demo !! k = Some n → nodes demo_reset !! k = Some n' →
             same_identity n n') ∧
  Forall2 same_static (edges demo) (edges demo_reset).
Proof.
  apply (run_ops_same_registry demo
           [OpAddPainPoint "A" "congestion" "Queue" 5 false;
            OpUpdatePortDelay "A" 0;
            OpRemovePainPoint 0]).
  apply reach_initialize, demo_edges_registered.
Defined.





(** ** The weather grid *)

(** X7: [set_severity] with a severity in [0, 1] succeeds; afterwards
    [get_severity] returns that severity at every point of the same block
    and what it returned before at every point of another block. *)
Theorem set_severity_get_severity w la lo sev :
  (0 <= sev <= 1)%Q →
  ∃ w', set_severity w la lo sev = Ok w' ∧
        grid_size w' = grid_size w ∧
        ∀ la' lo',
          (get_block_key w la' lo' = get_block_key w la lo →
           get_severity w' la' lo' = sev) ∧
          (get_block_key w la' lo' ≠ get_block_key w la lo →
           get_severity w' la' lo' = get_severity w la' lo').
Proof.
  intros [H0 H1]. unfold set_severity, Qltb.
  destruct (Qlt_le_dec sev 0) as [Hlt|_]; [lra|].
  destruct (Qlt_le_dec 1 sev) as [Hlt|_]; [lra|]. simpl.
  eexists. split; [done|]. split; [done|]. intros la' lo'.
  unfold get_severity, get_block_key; simpl. split.
  - intros ->. by rewrite lookup_insert_eq.
  - intros Hne. by rewrite lookup_insert_ne.
Qed.

Lemma set_severity_get_severity_witness :
  ∃ w', set_severity (WeatherGrid_init 5) (12 # 1) (-7 # 1) (3 # 4) = Ok w' ∧
        grid_size w' = grid_size (WeatherGrid_init 5) ∧
        ∀ la' lo',
          (get_block_key (WeatherGrid_init 5) la' lo'
           = get_block_key (WeatherGrid_init 5) (12 # 1) (-7 # 1) →
           get_severity w' la' lo' = (3 # 4)%Q) ∧
          (get_block_key (WeatherGrid_init 5) la' lo'
           ≠ get_block_key (WeatherGrid_init 5) (12 # 1) (-7 # 1) →
           get_severity w' la' lo' = get_severity (WeatherGrid_init 5) la' lo').
Proof.
  apply (set_severity_get_severity (WeatherGrid_init 5) (12 # 1) (-7 # 1) (3 # 4)).
  split; vm_compute; discriminate.
Defined.

(** X8: [update_weather] with a severity below 0 or above 1 raises
    [ValueError] before anything is written: the grid, the graph and every
    other field are as before. *)
Theorem update_weather_rejects_out_of_range la lo sev s :
  (sev < 0 ∨ 1 < sev)%Q →
  update_weather la lo sev s = (Raise ValueError, s).
Proof.
  intros Hsev. apply update_weather_raise. unfold set_severity, Qltb.
  destruct (Qlt_le_dec sev 0) as [?|H0]; [done|].
  destruct (Qlt_le_dec 1 sev) as [?|H1]; [done|]. lra.
Qed.

Lemma update_weather_rejects_out_of_range_witness :
  update_weather 0 0 (3 # 2) demo = (Raise ValueError, demo).
Proof.
  apply (update_weather_rejects_out_of_range 0 0 (3 # 2) demo).
  right. vm_compute. reflexivity.
Defined.

Lemma py_int_floor_bounds x :
  (0 <= x)%Q → (inject_Z (py_int x) <= x < inject_Z (py_int x + 1))%Q.
Proof.
  intros Hx. rewrite (py_int_nonneg x Hx). unfold py_floor.
  split; [apply Qfloor_le|apply Qlt_floor].
Qed.

Lemma py_int_opp x : py_int (- x) = (- py_int x)%Z.
Proof. destruct x as [n d]. unfold py_int; simpl. by rewrite Z.quot_opp_l. Qed.

Lemma py_int_ceil_bounds x :
  (x <= 0)%Q → (inject_Z (py_int x - 1) < x <= inject_Z (py_int x))%Q.
Proof.
  intros Hx.
  assert (py_int x = (- py_int (- x))%Z) as ->
    by (rewrite py_int_opp; lia).
  destruct (py_int_floor_bounds (- x)) as [H1 H2]; [lra|].
  replace (- py_int (- x) - 1)%Z with (- (py_int (- x) + 1))%Z by lia.
  rewrite !inject_Z_opp. split; lra.
Qed.

Lemma block_range (g : Z) (x : Q) :
  (0 < g)%Z →
  let k := (py_int (x / inject_Z g) * g)%Z in
  ((0 <= x)%Q → (inject_Z k <= x < inject_Z (k + g))%Q) ∧
  ((x <= 0)%Q → (inject_Z (k - g) < x <= inject_Z k)%Q).
Proof.
  intros Hg k.
  assert (0 < inject_Z g)%Q as HG by (unfold Qlt, inject_Z; simpl; lia).
  set (q := (x / inject_Z g)%Q) in *.
  assert (x == q * inject_Z g)%Q as Hx by (unfold q; field; lra).
  assert (inject_Z k == inject_Z (py_int q) * inject_Z g)%Q as Hk
    by (unfold k; by rewrite inject_Z_mult).
  split; intros Hsign.
  - assert (0 <= q)%Q as Hq by (unfold q; apply Qle_shift_div_l; lra).
    destruct (py_int_floor_bounds q Hq) as [H1 H2].
    rewrite inject_Z_plus in H2 |- *. rewrite Hk. split.
    + rewrite Hx. apply Qmult_le_compat_r; lra.
    + apply (Qmult_lt_compat_r _ _ (inject_Z g)) in H2; [|done].
      rewrite Hx. change (inject_Z 1) with 1%Q in H2.
      assert ((inject_Z (py_int q) + 1) * inject_Z g
              == inject_Z (py_int q) * inject_Z g + inject_Z g)%Q as Heq by ring.
      by rewrite Heq in H2.
  - assert (q <= 0)%Q as Hq by (unfold q; apply Qle_shift_div_r; lra).
    destruct (py_int_ceil_bounds q Hq) as [H1 H2].
    unfold Z.sub in H1 |- *. rewrite inject_Z_plus, inject_Z_opp in H1 |- *.
    rewrite Hk. split.
    + apply (Qmult_lt_compat_r _ _ (inject_Z g)) in H1; [|done].
      rewrite Hx. change (inject_Z 1) with 1%Q in H1.
      assert ((inject_Z (py_int q) + - (1)) * inject_Z g
              == inject_Z (py_int q) * inject_Z g + - inject_Z g)%Q as Heq by ring.
      by rewrite Heq in H1.
    + rewrite Hx. apply Qmult_le_compat_r; lra.
Qed.

(** X9: with a positive grid size and coordinates of magnitude up to
    [2^52] (where the binary64 quotient truncates to the same integer as the
    exact one), the block key of a point is a multiple of the grid size in
    each coordinate, and the block reaches from the key away from zero: a
    non-negative coordinate lies in [key, key + size), a non-positive one in
    (key - size, key]. *)
Theorem get_block_key_range w la lo :
  (0 < grid_size w ≤ 2 ^ 52)%Z → in_integer_range la → in_integer_range lo →
  ((0 <= la)%Q → (inject_Z (get_block_key w la lo).1 <= la
                  < inject_Z ((get_block_key w la lo).1 + grid_size w))%Q) ∧
  ((la <= 0)%Q → (inject_Z ((get_block_key w la lo).1 - grid_size w) < la
                  <= inject_Z (get_block_key w la lo).1)%Q) ∧
  ((0 <= lo)%Q → (inject_Z (get_block_key w la lo).2 <= lo
                  < inject_Z ((get_block_key w la lo).2 + grid_size w))%Q) ∧
  ((lo <= 0)%Q → (inject_Z ((get_block_key w la lo).2 - grid_size w) < lo
                  <= inject_Z (get_block_key w la lo).2)%Q) ∧
  (grid_size w | (get_block_key w la lo).1)%Z ∧
  (grid_size w | (get_block_key w la lo).2)%Z.
Proof.
  intros [Hg _] _ _. destruct (block_range (grid_size w) la Hg) as [A1 A2].
  destruct (block_range (grid_size w) lo Hg) as [B1 B2].
  unfold get_block_key; simpl. repeat (split; [done|]).
  split; apply Z.divide_factor_r.
Qed.

Lemma get_block_key_range_witness :
  ((0 <= -7 # 2)%Q →
   (inject_Z (get_block_key (WeatherGrid_init 5) (-7 # 2) (13 # 1)).1 <= -7 # 2
    < inject_Z ((get_block_key (WeatherGrid_init 5) (-7 # 2) (13 # 1)).1
                + grid_size (WeatherGrid_init 5)))%Q) ∧
  ((-7 # 2 <= 0)%Q →
   (inject_Z ((get_block_key (WeatherGrid_init 5) (-7 # 2) (13 # 1)).1
              - grid_size (WeatherGrid_init 5)) < -7 # 2
    <= inject_Z (get_block_key (WeatherGrid_init 5) (-7 # 2) (13 # 1)).1)%Q) ∧
  ((0 <= 13 # 1)%Q →
   (inject_Z (get_block_key (WeatherGrid_init 5) (-7 # 2) (13 # 1)).2 <= 13 # 1
    < inject_Z ((get_block_key (WeatherGrid_init 5) (-7 # 2) (13 # 1)).2
                + grid_size (WeatherGrid_init 5)))%Q) ∧
  ((13 # 1 <= 0)%Q →
   (inject_Z ((get_block_key (WeatherGrid_init 5) (-7 # 2) (13 # 1)).2
              - grid_size (WeatherGrid_init 5)) < 13 # 1
    <= inject_Z (get_block_key (WeatherGrid_init 5) (-7 # 2) (13 # 1)).2)%Q) ∧
  (grid_size (WeatherGrid_init 5)
   | (get_block_key (WeatherGrid_init 5) (-7 # 2) (13 # 1)).1)%Z ∧
  (grid_size (WeatherGrid_init 5)
   | (get_block_key (WeatherGrid_init 5) (-7 # 2) (13 # 1)).2)%Z.
Proof.
  apply (get_block_key_range (WeatherGrid_init 5) (-7 # 2) (13 # 1)).
  - vm_compute. split; [reflexivity | discriminate].
  - vm_compute. split; discriminate.
  - vm_compute. split; discriminate.
Defined.

(** ** Weather on an edge *)

Lemma scale_bounds (b wi c : Q) :
  (0 <= b)%Q → (0 <= wi <= 1)%Q → (0 <= c)%Q →
  (b <= b * (1 + wi * c) <= (1 + c) * b)%Q.
Proof.
  intros Hb [H0 H1] Hc.
  assert (0 <= b * c)%Q as Hbc by (by apply Qmult_le_0_compat).
  assert (0 <= (b * c) * wi)%Q as Hlo by (by apply Qmult_le_0_compat).
  assert (0 <= (b * c) * (1 - wi))%Q as Hhi by (apply Qmult_le_0_compat; lra).
  assert (b * (1 + wi * c) == b + (b * c) * wi)%Q as -> by ring.
  assert ((b * c) * (1 - wi) == b * c - (b * c) * wi)%Q as Heq by ring.
  rewrite Heq in Hhi.
  assert ((1 + c) * b == b + b * c)%Q as -> by ring.
  split; lra.
Qed.

(** X10: [update_values] with a weather impact in [0, 1] on an edge with
    non-negative base values keeps the endpoints, mode and base values,
    stores the impact, and sets each current value between the base value
    and 3 times (duration, emissions) or 2.5 times (cost) the base value. *)
Theorem update_values_bounds e wi :
  (0 <= wi <= 1)%Q →
  (0 <= base_duration e)%Q → (0 <= base_emissions e)%Q → (0 <= base_cost e)%Q →
  same_static e (update_values (Some wi) e) ∧
  weather_impact (update_values (Some wi) e) = wi ∧
  (base_duration e <= current_duration (update_values (Some wi) e)
   <= 3 * base_duration e)%Q ∧
  (base_emissions e <= current_emissions (update_values (Some wi) e)
   <= 3 * base_emissions e)%Q ∧
  (base_cost e <= current_cost (update_values (Some wi) e)
   <= (5 # 2) * base_cost e)%Q.
Proof.
  intros Hwi Hd He Hc. split; [by repeat split|]. split; [done|]. simpl.
  pose proof (scale_bounds (base_duration e) wi 2 Hd Hwi) as [D1 D2]; [lra|].
  pose proof (scale_bounds (base_emissions e) wi 2 He Hwi) as [E1 E2]; [lra|].
  pose proof (scale_bounds (base_cost e) wi (3 # 2) Hc Hwi) as [C1 C2]; [lra|].
  repeat split; try done; lra.
Qed.

Lemma update_values_bounds_witness :
  same_static (Edge_init "A" "B" "ship" 10 4 2)
              (update_values (Some (1 # 2)%Q) (Edge_init "A" "B" "ship" 10 4 2)) ∧
  weather_impact (update_values (Some (1 # 2)%Q) (Edge_init "A" "B" "ship" 10 4 2))
  = (1 # 2)%Q ∧
  (base_duration (Edge_init "A" "B" "ship" 10 4 2)
   <= current_duration (update_values (Some (1 # 2)%Q)
                          (Edge_init "A" "B" "ship" 10 4 2))
   <= 3 * base_duration (Edge_init "A" "B" "ship" 10 4 2))%Q ∧
  (base_emissions (Edge_init "A" "B" "ship" 10 4 2)
   <= current_emissions (update_values (Some (1 # 2)%Q)
                           (Edge_init "A" "B" "ship" 10 4 2))
   <= 3 * base_emissions (Edge_init "A" "B" "ship" 10 4 2))%Q ∧
  (base_cost (Edge_init "A" "B" "ship" 10 4 2)
   <= current_cost (update_values (Some (1 # 2)%Q)
                      (Edge_init "A" "B" "ship" 10 4 2))
   <= (5 # 2) * base_cost (Edge_init "A" "B" "ship" 10 4 2))%Q.
Proof.
  apply (update_values_bounds (Edge_init "A" "B" "ship" 10 4 2) (1 # 2));
    try split; vm_compute; discriminate.
Defined.
